(** * blogtv-data: the channel builder (scripts/build-channels.js)

    A shallow embedding of the script's data model and of its functions
    [fetchIptvOrg], [fetchYouTube], [fetchTMDB], [loadLocal], [mergeAll] and
    [buildUrlHistory], with the properties the specification states about
    them. *)

From Stdlib Require Import ZArith QArith Qcanon String Ascii List Lia.
From stdpp Require Import base numbers list strings gmap pretty.

Local Open Scope string_scope.
Local Open Scope list_scope.
Local Open Scope nat_scope.

(** ** JavaScript values *)

Module JS.

(** A number as JSON can produce it, taken up to SameValueZero: a finite
    double is named by the rational it denotes (so [+0] and [-0] coincide),
    an overflowing literal gives an infinity, and [NaN] cannot occur. *)
Inductive number :=
| NFin (q : Qc)
| NPosInf
| NNegInf.

(** The values held by the fields of an entry or by the slots of an array.
    An object or array nested in such a place is seen only through its
    identity ([VRef]): the script never looks inside one, it only tests it
    for truthiness and compares it in a [Set]. *)
Inductive value :=
| VUndefined
| VNull
| VBool (b : bool)
| VNum (n : number)
| VStr (s : string)
| VRef (addr : positive).

#[global] Instance number_eq_dec : EqDecision number.
Proof. solve_decision. Defined.

#[global] Instance value_eq_dec : EqDecision value.
Proof. solve_decision. Defined.

(** ToBoolean. *)
Definition truthy (v : value) : bool :=
  match v with
  | VUndefined | VNull => false
  | VBool b => b
  | VNum (NFin q) => negb (bool_decide (q = 0%Qc))
  | VNum _ => true
  | VStr s => negb (bool_decide (s = ""))
  | VRef _ => true
  end.

(** [a || b] on values. *)
Definition or_else (a b : value) : value := if truthy a then a else b.

(** An optional string read as a value: absent is [undefined]. *)
Definition of_opt (o : option string) : value :=
  match o with Some s => VStr s | None => VUndefined end.

(** [s.slice(0, n)] on a string. *)
Definition slice0 (n : nat) (s : string) : string := String.substring 0 n s.

(** A number literal that is an integer. *)
Definition num (z : Z) : value := VNum (NFin (Qc_of_Z z)).

End JS.
Import JS.

(** ** The built-in [Set]: insertion ordered, compared by SameValueZero *)

Module JSSet.
Section JSSet.
Context {A : Type} `{EqDecision A}.

Definition t := list A.

Definition empty : t := [].

Definition has (s : t) (v : A) : bool := bool_decide (v ∈ s).

Definition add (s : t) (v : A) : t := if has s v then s else s ++ [v].

(** [new Set(iterable)]. *)
Definition of_iterable (l : list A) : t := foldl add empty l.

(** [[...set]]. *)
Definition spread (s : t) : list A := s.

End JSSet.
Arguments t : clear implicits.
End JSSet.

(** ** History Builder *)

Module History.

Definition defaults : list value :=
  VStr <$>
  [ "https://en.wikipedia.org/wiki/Television";
    "https://en.wikipedia.org/wiki/Internet";
    "https://en.wikipedia.org/wiki/Artificial_intelligence";
    "https://en.wikipedia.org/wiki/Space_exploration";
    "https://en.wikipedia.org/wiki/Climate_change";
    "https://en.wikipedia.org/wiki/History_of_the_Internet";
    "https://en.wikipedia.org/wiki/Streaming_media";
    "https://en.wikipedia.org/wiki/Quantum_computing";
    "https://en.wikipedia.org/wiki/Renewable_energy";
    "https://en.wikipedia.org/wiki/Cryptocurrency" ].

(** The argument is [Some l] when [Array.isArray] holds of it, with [l] its
    elements, and [None] for anything else ([undefined], an object, ...). *)
Definition buildUrlHistory (existing : option (list value)) : list value :=
  let existingUrls := match existing with Some l => l | None => [] end in
  let merged := JSSet.spread (JSSet.of_iterable (defaults ++ existingUrls)) in
  take 50 merged.

End History.

(** ** Completions: a normal result or a thrown exception *)

Module Completion.

Record exn := { exn_name : string; message : string }.

Inductive completion (A : Type) :=
| Normal (a : A)
| Throw (e : exn).
Arguments Normal {A} a.
Arguments Throw {A} e.

Definition bind {A B} (c : completion A) (k : A → completion B) : completion B :=
  match c with
  | Normal a => k a
  | Throw e => Throw e
  end.

(** A [for ... of] loop whose body may throw. *)
Fixpoint for_of {A S} (body : S → A → completion S) (s : S) (l : list A) : completion S :=
  match l with
  | [] => Normal s
  | x :: rest => bind (body s x) (λ s', for_of body s' rest)
  end.

Definition TypeError (msg : string) : exn := {| exn_name := "TypeError"; message := msg |}.
Definition SyntaxError (msg : string) : exn := {| exn_name := "SyntaxError"; message := msg |}.

End Completion.
Import Completion.

#[global] Instance completion_bind : MBind completion := λ A B k c, Completion.bind c k.
#[global] Instance completion_ret : MRet completion := @Completion.Normal.

(** ** Strings *)

Module Str.

Definition code (c : ascii) : nat := nat_of_ascii c.

Definition dquote : ascii := ascii_of_nat 34.
Definition LF : ascii := ascii_of_nat 10.
Definition CR : ascii := ascii_of_nat 13.

(** The white space [trim] removes, among the characters of one byte:
    TAB, LF, VT, FF, CR and the space. *)
Definition is_space (c : ascii) : bool :=
  ((code c =? 32) || ((9 <=? code c) && (code c <=? 13)))%nat.

Fixpoint trim_start (s : string) : string :=
  match s with
  | EmptyString => EmptyString
  | String c r => if is_space c then trim_start r else s
  end.

Fixpoint trim_end (s : string) : string :=
  match s with
  | EmptyString => EmptyString
  | String c r =>
      match trim_end r with
      | EmptyString => if is_space c then EmptyString else String c EmptyString
      | r' => String c r'
      end
  end.

Definition trim (s : string) : string := trim_end (trim_start s).

(** [s.split(sep)] for a separator of one character. *)
Fixpoint split (sep : ascii) (s : string) : list string :=
  match s with
  | EmptyString => [EmptyString]
  | String c r =>
      if bool_decide (c = sep) then EmptyString :: split sep r
      else match split sep r with
           | h :: t => String c h :: t
           | [] => [String c EmptyString]
           end
  end.

Definition startsWith (p s : string) : bool := String.prefix p s.

(** Case folding of the [i] flag: only the letters A-Z and a-z meet. *)
Definition fold_case (c : ascii) : ascii :=
  if ((65 <=? code c) && (code c <=? 90))%nat then ascii_of_nat (code c + 32) else c.

(** The rest of [s] after the literal [p], matched without regard to case. *)
Fixpoint after_ci (p s : string) : option string :=
  match p, s with
  | EmptyString, _ => Some s
  | String a p', String b s' =>
      if bool_decide (fold_case a = fold_case b) then after_ci p' s' else None
  | String _ _, EmptyString => None
  end.

(** The capture group and the closing quote at the start of [s]: the text
    before the first double quote, which has to be there. *)
Fixpoint quoted (s : string) : option string :=
  match s with
  | EmptyString => None
  | String c r =>
      if bool_decide (c = dquote) then Some EmptyString
      else String c <$> quoted r
  end.

(** Capture 1 of the leftmost match in [s] of the pattern made of [attr],
    an equals sign and a double-quoted run of other characters, under the
    [i] flag: the patterns for [group-title], [tvg-logo] and [tvg-id]. *)
Fixpoint match_attr (attr : string) (s : string) : option string :=
  let here := after_ci (attr +:+ "=" +:+ String dquote EmptyString) s ≫= quoted in
  match here with
  | Some cap => Some cap
  | None =>
      match s with
      | EmptyString => None
      | String _ r => match_attr attr r
      end
  end.

Definition is_line_terminator (c : ascii) : bool :=
  bool_decide (c = LF) || bool_decide (c = CR).

Fixpoint dots (s : string) : bool :=
  match s with
  | EmptyString => true
  | String c r => negb (is_line_terminator c) && dots r
  end.

(** Capture 1 of the leftmost match of [/,(.+)$/] in [s]: what follows the
    first comma after which the text runs to its end without a line
    terminator. *)
Fixpoint match_after_comma (s : string) : option string :=
  match s with
  | EmptyString => None
  | String c r =>
      if bool_decide (c = ","%char) && negb (bool_decide (r = EmptyString)) && dots r
      then Some r
      else match_after_comma r
  end.

End Str.

(** ** Category Table *)

Module Table.

Record descriptor := {
  iptv_groups : list string;
  yt_query : string;
  tmdb_genre_id : Z
}.

(** [Object.entries(CATEGORIES)]: the keys in the order they are written. *)
Definition CATEGORIES : list (string * descriptor) :=
  [ ("news",          {| iptv_groups := ["News"; "General"];            yt_query := "news live stream";             tmdb_genre_id := 10763 |});
    ("technology",    {| iptv_groups := ["Science / Technology"];       yt_query := "technology documentary";       tmdb_genre_id := 10759 |});
    ("science",       {| iptv_groups := ["Science / Technology"];       yt_query := "science documentary";          tmdb_genre_id := 99 |});
    ("history",       {| iptv_groups := ["Education"];                  yt_query := "history documentary";          tmdb_genre_id := 99 |});
    ("sports",        {| iptv_groups := ["Sports"];                     yt_query := "sports live stream";           tmdb_genre_id := 10759 |});
    ("music",         {| iptv_groups := ["Music"];                      yt_query := "music live stream";            tmdb_genre_id := 10749 |});
    ("entertainment", {| iptv_groups := ["Entertainment"; "Lifestyle"]; yt_query := "entertainment live stream";    tmdb_genre_id := 10751 |});
    ("nature",        {| iptv_groups := ["Science / Technology"];       yt_query := "nature wildlife documentary";  tmdb_genre_id := 99 |});
    ("cooking",       {| iptv_groups := ["Lifestyle"];                  yt_query := "cooking show";                 tmdb_genre_id := 10751 |});
    ("travel",        {| iptv_groups := ["Travel"];                     yt_query := "travel documentary";           tmdb_genre_id := 10749 |});
    ("politics",      {| iptv_groups := ["News"; "General"];            yt_query := "politics documentary";         tmdb_genre_id := 10763 |});
    ("business",      {| iptv_groups := ["Business"];                   yt_query := "business finance documentary"; tmdb_genre_id := 10763 |});
    ("health",        {| iptv_groups := ["Lifestyle"];                  yt_query := "health wellness documentary";  tmdb_genre_id := 10751 |});
    ("kids",          {| iptv_groups := ["Kids"];                       yt_query := "kids educational show";        tmdb_genre_id := 10762 |});
    ("animation",     {| iptv_groups := ["Animation"];                  yt_query := "animation show";               tmdb_genre_id := 16 |});
    ("general",       {| iptv_groups := ["General"];                    yt_query := "documentary";                  tmdb_genre_id := 99 |}) ].

End Table.

(** ** Channel entries *)

(** An entry is an object, taken as the spread operator sees it: its own
    enumerable properties, by name.  (A list element that is no object is
    spread in the same way: [null], a number or a boolean has no property.) *)
Abbreviation entry := (gmap string value).

(** A mapping from a group or category name to its list of entries, as the
    fetchers build it and as the data model types the two local documents:
    under a name there is a list or nothing. *)
Abbreviation listing := (gmap string (list entry)).

Module Entry.

(** [e.url]: reading a property that is not there gives [undefined]. *)
Definition url (e : entry) : value := default VUndefined (e !! "url").

(** [m[k] || []]. *)
Definition at_key (m : listing) (k : string) : list entry := default [] (m !! k).

End Entry.

(** ** Playlist Fetcher *)

Module Playlist.

(** The object held by [current] between a metadata line and its URL. *)
Record channel := {
  name : string;
  logo : string;
  id : string;
  group : string;
  source : string;
  type : string
}.

(** [{ ...current }] once [current.url] is set. *)
Definition to_entry (c : channel) (url : string) : entry :=
  <["url" := VStr url]>
    (<["type" := VStr (type c)]>
      (<["source" := VStr (source c)]>
        (<["group" := VStr (group c)]>
          (<["id" := VStr (id c)]>
            (<["logo" := VStr (logo c)]>
              (<["name" := VStr (name c)]> ∅)))))).

(** The object built from a line that starts with [#EXTINF]. *)
Definition announce (trimmed : string) : channel :=
  let groupMatch := Str.match_attr "group-title" trimmed in
  let nameMatch := Str.match_after_comma trimmed in
  let logoMatch := Str.match_attr "tvg-logo" trimmed in
  let idMatch := Str.match_attr "tvg-id" trimmed in
  {| name := match nameMatch with Some m => Str.trim m | None => "Unknown" end;
     logo := match logoMatch with Some m => Str.trim m | None => "" end;
     id := match idMatch with Some m => Str.trim m | None => "" end;
     group := match groupMatch with Some m => Str.trim m | None => "General" end;
     source := "iptv-org";
     type := "live" |}.

Record state := {
  byGroup : listing;
  current : option channel
}.

(** The names [byGroup], an object literal, inherits as methods: read under
    such a name it yields a function, which is truthy, has a small [length]
    and no [push]. *)
Definition inherited_methods : list string :=
  [ "constructor"; "hasOwnProperty"; "isPrototypeOf"; "propertyIsEnumerable";
    "toLocaleString"; "toString"; "valueOf";
    "__defineGetter__"; "__defineSetter__"; "__lookupGetter__"; "__lookupSetter__" ].

(** The three statements that file an entry under its group [g]. *)
Definition file_under (byGroup : listing) (g : string) (e : entry) : completion listing :=
  match byGroup !! g with
  | Some streams =>
      (* an own property: the array made on the first visit *)
      if (length streams <? 60)%nat then Normal (<[g := streams ++ [e]]> byGroup)
      else Normal byGroup
  | None =>
      if bool_decide (g = "__proto__") then
        (* the prototype object: truthy, and its [length] is undefined *)
        Normal byGroup
      else if bool_decide (g ∈ inherited_methods) then
        Throw (TypeError "byGroup[g].push is not a function")
      else Normal (<[g := [e]]> byGroup)
  end.

(** The body of the loop over the lines. *)
Definition step (st : state) (line : string) : completion state :=
  let trimmed := Str.trim line in
  if Str.startsWith "#EXTINF" trimmed then
    Normal {| byGroup := byGroup st; current := Some (announce trimmed) |}
  else if Str.startsWith "http" trimmed then
    match current st with
    | Some c =>
        byGroup' ← file_under (byGroup st) (group c) (to_entry c trimmed);
        Normal {| byGroup := byGroup'; current := None |}
    | None => Normal st
    end
  else Normal st.

Definition parse (lines : list string) : completion state :=
  for_of step {| byGroup := ∅; current := None |} lines.

(** [raw] is what [get] resolved to: the text of the playlist, or [None]
    for the [null] of a failed request. *)
Definition fetchIptvOrg (raw : option string) : completion listing :=
  match raw with
  | None => Normal ∅
  | Some text =>
      if bool_decide (text = "") then Normal ∅
      else
        let lines := Str.split Str.LF text in
        st ← parse lines;
        Normal (byGroup st)
  end.

(** *** The vocabulary of the specification *)

(** A metadata line, and a line that supplies a URL. *)
Definition is_meta (line : string) : bool := Str.startsWith "#EXTINF" (Str.trim line).
Definition is_url (line : string) : bool :=
  negb (is_meta line) && Str.startsWith "http" (Str.trim line).

(** [e] is made of two lines: a metadata line and a later URL line, with
    only lines that satisfy [between] from the one to the other. *)
Definition pair_with (between : string → Prop) (lines : list string) (e : entry) : Prop :=
  ∃ i j meta url,
    i < j
    ∧ lines !! i = Some meta ∧ is_meta meta = true
    ∧ lines !! j = Some url ∧ is_url url = true
    ∧ e = to_entry (announce (Str.trim meta)) (Str.trim url)
    ∧ ∀ k line, i < k < j → lines !! k = Some line → between line.


(** The URL line is the first line after the metadata line that starts
    with [http], and no other metadata line comes before it. *)
Definition next_url_pair : list string → entry → Prop :=
  pair_with (λ line, is_meta line = false ∧ is_url line = false).

(** The invariant of the loop, once the lines [seen] have been read:
    every entry filed is such a pair of lines of [seen], under its own
    group, and the pending object, if any, comes from a metadata line
    that neither a URL line nor a metadata line follows yet. *)
Definition reading (seen : list string) (st : state) : Prop :=
  (∀ g streams e,
     byGroup st !! g = Some streams → e ∈ streams →
     next_url_pair seen e ∧ e !! "group" = Some (VStr g))
  ∧ (∀ c, current st = Some c →
       ∃ i meta, seen !! i = Some meta ∧ is_meta meta = true
                 ∧ c = announce (Str.trim meta)
                 ∧ ∀ k line, i < k → seen !! k = Some line →
                     is_meta line = false ∧ is_url line = false).

(** [e] is in the list of group [g] of the mapping returned for [raw]. *)
Definition emitted (raw : option string) (g : string) (e : entry) : Prop :=
  ∃ byGroup streams,
    fetchIptvOrg raw = Normal byGroup ∧ byGroup !! g = Some streams ∧ e ∈ streams.

End Playlist.

(** ** The network: [get] and the requests it has sent *)

Module Net.

(** The arguments of one call of [get]. *)
Record request := {
  url : string;
  params : list (string * value)
}.

Section Net.
Context {Data : Type}.

(** What the outside answers to a request, which may depend on the
    requests sent before it; [None] is the [null] that [get] returns
    when the GET fails. *)
Definition network := list request → request → option Data.

(** A computation that sends requests: it maps the requests sent so
    far to its result and the requests sent by its end. *)
Definition M (A : Type) : Type := list request → A * list request.

Definition ret {A} (a : A) : M A := λ sent, (a, sent).

Definition bind {A B} (m : M A) (k : A → M B) : M B :=
  λ sent, let '(a, sent') := m sent in k a sent'.

(** [await get(url, params)]. *)
Definition get (net : network) (r : request) : M (option Data) :=
  λ sent, (net sent r, sent ++ [r]).

(** A [for ... of] loop whose body awaits. *)
Fixpoint for_of {A S} (body : S → A → M S) (s : S) (l : list A) : M S :=
  match l with
  | [] => ret s
  | x :: rest => bind (body s x) (λ s', for_of body s' rest)
  end.

End Net.
End Net.

Notation "'await' x := c 'in' k" := (Net.bind c (λ x, k))
  (at level 10, x name, c at level 100, k at level 200, only parsing).

(** ** Video Search Fetcher *)

Module YouTube.
Import Table.

Record thumbnail := { thumb_url : value }.
Record thumbnail_set := { default_thumb : option thumbnail }.
Record snippet_of := {
  title : value;
  thumbnails : option thumbnail_set;
  description : option string
}.
Record id_of := { videoId : option string }.
Record item := { id : option id_of; snippet : snippet_of }.

(** The body of a response; [items] may be missing. *)
Record data := { items : option (list item) }.

Definition search (key : string) (def : descriptor) : Net.request :=
  {| Net.url := "https://www.googleapis.com/youtube/v3/search";
     Net.params :=
       [ ("key", VStr key);
         ("q", VStr (yt_query def));
         ("part", VStr "snippet");
         ("type", VStr "video");
         ("maxResults", num 8);
         ("videoCategoryId", num 0);
         ("videoEmbeddable", VBool true) ] |}.

(** [i.id && i.id.videoId], as the value the expression has. *)
Definition video_of (i : item) : value :=
  match id i with
  | Some d => of_opt (videoId d)
  | None => VUndefined
  end.

(** The template literal of the watch URL; it is built only for items
    that passed the filter, whose [videoId] is a string. *)
Definition watch_url (i : item) : string :=
  "https://www.youtube.com/watch?v=" +:+
  match video_of i with VStr v => v | _ => "undefined" end.

(** The callback of [map]. *)
Definition to_entry (i : item) : entry :=
  <["type" := VStr "vod"]>
    (<["source" := VStr "youtube"]>
      (<["desc" := or_else (of_opt (slice0 120 <$> description (snippet i))) (VStr "")]>
        (<["logo" := or_else (default VUndefined (thumb_url <$> (thumbnails (snippet i) ≫= default_thumb)))
                             (VStr "")]>
          (<["url" := VStr (watch_url i)]>
            (<["name" := title (snippet i)]> ∅))))).

(** The body of the loop over the table. *)
Definition step (net : Net.network) (key : string)
    (byCategory : listing) (row : string * descriptor) : Net.M listing :=
  let '(cat, def) := row in
  await data := Net.get net (search key def) in
  match data with
  | None => Net.ret byCategory
  | Some d =>
      match items d with
      | None => Net.ret byCategory
      | Some its =>
          Net.ret (<[cat := to_entry <$> filter (λ i, truthy (video_of i) = true) its]> byCategory)
      end
  end.

Definition fetchYouTube (net : Net.network) (YOUTUBE_KEY : string) : Net.M listing :=
  if bool_decide (YOUTUBE_KEY = "") then Net.ret ∅
  else Net.for_of (step net YOUTUBE_KEY) ∅ CATEGORIES.

End YouTube.

(** ** Metadata Fetcher *)

Module TMDB.
Import Table.

(** One show of a response; [id] is an integer, printed in decimal. *)
Record result := {
  name : option string;
  original_name : option string;
  id : Z;
  poster_path : option string;
  overview : option string
}.

Record data := { results : option (list result) }.

Definition discover (key : string) (def : descriptor) : Net.request :=
  {| Net.url := "https://api.themoviedb.org/3/discover/tv";
     Net.params :=
       [ ("api_key", VStr key);
         ("with_genres", num (tmdb_genre_id def));
         ("sort_by", VStr "popularity.desc");
         ("page", num 1) ] |}.

(** The callback of [map]. *)
Definition to_entry (r : result) : entry :=
  <["type" := VStr "info"]>
    (<["source" := VStr "tmdb"]>
      (<["desc" := VStr (slice0 120 (default "" (overview r)))]>
        (<["logo" := VStr (if truthy (of_opt (poster_path r))
                           then "https://image.tmdb.org/t/p/w92" +:+ default "" (poster_path r)
                           else "")]>
          (<["url" := VStr ("https://www.themoviedb.org/tv/" +:+ pretty (id r))]>
            (<["name" := or_else (of_opt (name r)) (of_opt (original_name r))]> ∅))))).

(** What the loop carries from one category to the next. *)
Record state := {
  byCategory : listing;
  seen : JSSet.t Z
}.

(** The body of the loop over the table. *)
Definition step (net : Net.network) (key : string)
    (st : state) (row : string * descriptor) : Net.M state :=
  let '(cat, def) := row in
  if JSSet.has (seen st) (tmdb_genre_id def) then Net.ret st
  else
    let seen' := JSSet.add (seen st) (tmdb_genre_id def) in
    await data := Net.get net (discover key def) in
    match data with
    | None => Net.ret {| byCategory := byCategory st; seen := seen' |}
    | Some d =>
        match results d with
        | None => Net.ret {| byCategory := byCategory st; seen := seen' |}
        | Some rs =>
            Net.ret {| byCategory := <[cat := to_entry <$> take 8 rs]> (byCategory st);
                       seen := seen' |}
        end
    end.

(** *** The vocabulary of the specification *)

(** The rows that are the first to claim their genre id: those whose id
    is not among the ids of the rows [earlier] in the table. *)
Fixpoint first_claims_after (earlier : list Z) (rows : list (string * descriptor))
    : list (string * descriptor) :=
  match rows with
  | [] => []
  | row :: rest =>
      (if bool_decide (tmdb_genre_id (row.2) ∈ earlier) then [] else [row])
      ++ first_claims_after (earlier ++ [tmdb_genre_id (row.2)]) rest
  end.

Definition first_claims : list (string * descriptor) → list (string * descriptor) :=
  first_claims_after [].

Definition fetchTMDB (net : Net.network) (TMDB_KEY : string) : Net.M listing :=
  if bool_decide (TMDB_KEY = "") then Net.ret ∅
  else
    await st := Net.for_of (step net TMDB_KEY) {| byCategory := ∅; seen := JSSet.empty |} CATEGORIES in
    Net.ret (byCategory st).

End TMDB.

(** ** JSON texts and their values *)

#[local] Set Warnings "-register-all".

Module JSON.

(** A parsed JSON text.  A number keeps its literal: its double is not
    computed. *)
Inductive json :=
| JNull
| JBool (b : bool)
| JNum (literal : string)
| JStr (s : string)
| JArr (items : list json)
| JObj (members : gmap string json).

Definition is_ws (c : ascii) : bool :=
  ((Str.code c =? 32) || (Str.code c =? 9) || (Str.code c =? 10) || (Str.code c =? 13))%nat.

Fixpoint skip_ws (s : string) : string :=
  match s with
  | String c r => if is_ws c then skip_ws r else s
  | EmptyString => EmptyString
  end.

Definition is_digit (c : ascii) : bool := ((48 <=? Str.code c) && (Str.code c <=? 57))%nat.

(** The longest run of digits at the start of [s], and what follows it. *)
Fixpoint digits (s : string) : string * string :=
  match s with
  | String c r =>
      if is_digit c then let '(d, r') := digits r in (String c d, r') else (EmptyString, s)
  | EmptyString => (EmptyString, EmptyString)
  end.

Definition digits1 (s : string) : option (string * string) :=
  let '(d, r) := digits s in
  if bool_decide (d = "") then None else Some (d, r).

(** A number: sign, integer part without leading zero, fraction, exponent. *)
Definition number (s : string) : option (string * string) :=
  let '(sign, s) :=
    match s with String "-" r => ("-", r) | _ => ("", s) end in
  '(int, s) ← match s with
              | String "0" r => Some ("0", r)
              | _ => digits1 s
              end;
  '(frac, s) ← match s with
               | String "." r => '(d, r') ← digits1 r; Some ("." +:+ d, r')
               | _ => Some ("", s)
               end;
  '(exp, s) ← match s with
              | String c r =>
                  if bool_decide (c = "e"%char) || bool_decide (c = "E"%char) then
                    let '(esign, r) :=
                      match r with
                      | String "+" r' => ("+", r')
                      | String "-" r' => ("-", r')
                      | _ => ("", r)
                      end in
                    '(d, r') ← digits1 r; Some (String c esign +:+ d, r')
                  else Some ("", s)
              | EmptyString => Some ("", s)
              end;
  Some (sign +:+ int +:+ frac +:+ exp, s).

Definition hex (c : ascii) : option N :=
  let n := N.of_nat (Str.code c) in
  if ((48 <=? n) && (n <=? 57))%N then Some (n - 48)%N
  else if ((65 <=? n) && (n <=? 70))%N then Some (n - 55)%N
  else if ((97 <=? n) && (n <=? 102))%N then Some (n - 87)%N
  else None.

(** A piece of a string literal: a character written as it is, or the
    code unit of a [\u] escape. *)
Inductive piece :=
| Raw (c : ascii)
| Unit16 (n : N).

(** The characters of a string literal after its opening quote, up to the
    closing one. *)
Fixpoint pieces (s : string) : option (list piece * string) :=
  match s with
  | EmptyString => None
  | String c r =>
      if bool_decide (c = Str.dquote) then Some ([], r)
      else if bool_decide (c = "\"%char) then
        match r with
        | String "u" (String a (String b (String c' (String d r')))) =>
            a ← hex a; b ← hex b; c' ← hex c'; d ← hex d;
            '(ps, r'') ← pieces r';
            Some (Unit16 (((a * 16 + b) * 16 + c') * 16 + d)%N :: ps, r'')
        | String e r' =>
            e' ← (if bool_decide (e = Str.dquote) then Some Str.dquote
                  else if bool_decide (e = "\"%char) then Some "\"%char
                  else if bool_decide (e = "/"%char) then Some "/"%char
                  else if bool_decide (e = "b"%char) then Some (ascii_of_nat 8)
                  else if bool_decide (e = "f"%char) then Some (ascii_of_nat 12)
                  else if bool_decide (e = "n"%char) then Some (ascii_of_nat 10)
                  else if bool_decide (e = "r"%char) then Some (ascii_of_nat 13)
                  else if bool_decide (e = "t"%char) then Some (ascii_of_nat 9)
                  else None);
            '(ps, r'') ← pieces r';
            Some (Raw e' :: ps, r'')
        | EmptyString => None
        end
      else if (Str.code c <? 32)%nat then None
      else '(ps, r') ← pieces r; Some (Raw c :: ps, r')
  end.

Definition byte (n : N) : ascii := ascii_of_N n.

(** A code point as bytes of UTF-8. *)
Definition utf8 (cp : N) : list ascii :=
  if (cp <? 128)%N then [byte cp]
  else if (cp <? 2048)%N then [byte (192 + cp / 64); byte (128 + cp mod 64)]
  else if (cp <? 65536)%N then
    [byte (224 + cp / 4096); byte (128 + (cp / 64) mod 64); byte (128 + cp mod 64)]
  else
    [byte (240 + cp / 262144); byte (128 + (cp / 4096) mod 64);
     byte (128 + (cp / 64) mod 64); byte (128 + cp mod 64)].

(** The text of a string literal; a surrogate pair is one code point. *)
Fixpoint text_of (ps : list piece) : list ascii :=
  match ps with
  | [] => []
  | Raw c :: rest => c :: text_of rest
  | Unit16 hi :: rest =>
      match rest with
      | Unit16 lo :: rest' =>
          if ((55296 <=? hi) && (hi <? 56320) && (56320 <=? lo) && (lo <? 57344))%N
          then utf8 (65536 + (hi - 55296) * 1024 + (lo - 56320))%N ++ text_of rest'
          else utf8 hi ++ text_of rest
      | _ => utf8 hi ++ text_of rest
      end
  end.

Definition string_literal (s : string) : option (string * string) :=
  '(ps, r) ← pieces s; Some (string_of_list_ascii (text_of ps), r).

(** A value at the start of [s], and what follows it.  [fuel] bounds the
    number of nested and successive values. *)
Fixpoint value_at (fuel : nat) (s : string) : option (json * string) :=
  match fuel with
  | O => None
  | S fuel =>
      match skip_ws s with
      | EmptyString => None
      | String c r =>
          if bool_decide (c = "{"%char) then
            match skip_ws r with
            | String "}" r' => Some (JObj ∅, r')
            | _ => members_at fuel ∅ r
            end
          else if bool_decide (c = "["%char) then
            match skip_ws r with
            | String "]" r' => Some (JArr [], r')
            | _ => elements_at fuel [] r
            end
          else if bool_decide (c = Str.dquote) then
            '(str, r') ← string_literal r; Some (JStr str, r')
          else if bool_decide (c = "-"%char) || is_digit c then
            '(lit, r') ← number (String c r); Some (JNum lit, r')
          else if Str.startsWith "true" (String c r) then
            Some (JBool true, String.substring 4 (String.length r) (String c r))
          else if Str.startsWith "false" (String c r) then
            Some (JBool false, String.substring 5 (String.length r) (String c r))
          else if Str.startsWith "null" (String c r) then
            Some (JNull, String.substring 4 (String.length r) (String c r))
          else None
      end
  end
with elements_at (fuel : nat) (acc : list json) (s : string) : option (json * string) :=
  match fuel with
  | O => None
  | S fuel =>
      '(v, r) ← value_at fuel s;
      match skip_ws r with
      | String "," r' => elements_at fuel (acc ++ [v]) r'
      | String "]" r' => Some (JArr (acc ++ [v]), r')
      | _ => None
      end
  end
with members_at (fuel : nat) (acc : gmap string json) (s : string) : option (json * string) :=
  match fuel with
  | O => None
  | S fuel =>
      match skip_ws s with
      | String c r =>
          if bool_decide (c = Str.dquote) then
            '(k, r) ← string_literal r;
            match skip_ws r with
            | String ":" r =>
                '(v, r) ← value_at fuel r;
                match skip_ws r with
                | String "," r' => members_at fuel (<[k := v]> acc) r'
                | String "}" r' => Some (JObj (<[k := v]> acc), r')
                | _ => None
                end
            | _ => None
            end
          else None
      | EmptyString => None
      end
  end.

(** [JSON.parse(text)]: one value, with nothing but white space around
    it.  The wording of the engine's error message is not reproduced. *)
Definition parse (text : string) : completion json :=
  match value_at (2 * String.length text + 2) text with
  | Some (v, r) =>
      if bool_decide (skip_ws r = "") then Normal v
      else Throw (SyntaxError "Unexpected non-whitespace character after JSON")
  | None => Throw (SyntaxError "Unexpected token in JSON")
  end.

End JSON.
Import JSON.

(** ** Local Loaders *)

Module Local.

(** What the loader asks of its host: the data directory, [path.join],
    [fs.existsSync], [fs.readFileSync] and [JSON.parse]. *)
Record host := {
  DATA_DIR : string;
  path_join : string → string → string;
  existsSync : string → bool;
  readFileSync : string → completion string;
  JSON_parse : string → completion json
}.

(** The result of a call and the lines it wrote with [console.warn]. *)
Definition loadLocal (h : host) (filename : string) : completion json * list string :=
  let p := path_join h (DATA_DIR h) filename in
  if negb (existsSync h p) then (Normal (JObj ∅), [])
  else
    match text ← readFileSync h p; JSON_parse h text with
    | Normal v => (Normal v, [])
    | Throw e =>
        (Normal (JObj ∅),
         ["  WARN: could not parse " +:+ filename +:+ ": " +:+ message e])
    end.

(** A host over a directory of text files, with the parser above. *)
Definition host_of (dir : string) (files : gmap string string) : host :=
  {| DATA_DIR := dir;
     path_join := λ a b, a +:+ "/" +:+ b;
     existsSync := λ p, bool_decide (is_Some (files !! p));
     readFileSync := λ p,
       match files !! p with
       | Some text => Normal text
       | None => Throw {| exn_name := "Error"; message := "ENOENT: no such file or directory" |}
       end;
     JSON_parse := JSON.parse |}.

(** The line [console.warn] writes when the file cannot be read or
    parsed. *)
Definition warning (filename : string) (e : exn) : string :=
  "  WARN: could not parse " +:+ filename +:+ ": " +:+ message e.

(** A value that is a mapping: a JSON object. *)
Definition is_mapping (v : json) : Prop := ∃ members, v = JObj members.

End Local.

(** ** Merge Engine *)

Module Merge.
Import Table.

Record document := {
  updated : string;
  version : string;
  categories : listing
}.

(** [{ ...s, category: cat }]. *)
Definition with_category (cat : string) (s : entry) : entry :=
  <["category" := VStr cat]> s.

(** [{ ...s, category: cat, source: src }]. *)
Definition with_source (cat src : string) (s : entry) : entry :=
  <["source" := VStr src]> (<["category" := VStr cat]> s).

(** The [filter] callback with its captured [seen] set: the set is passed
    from one call to the next. *)
Fixpoint dedup (seen : JSSet.t value) (entries : list entry) : list entry :=
  match entries with
  | [] => []
  | e :: rest =>
      if negb (truthy (Entry.url e)) || JSSet.has seen (Entry.url e)
      then dedup seen rest
      else e :: dedup (JSSet.add seen (Entry.url e)) rest
  end.

(** The first inner loop: up to 15 streams of each of the category's groups. *)
Definition from_groups (cat : string) (def : descriptor) (iptvByGroup : listing) : list entry :=
  foldl (λ entries group,
           let streams := Entry.at_key iptvByGroup group in
           entries ++ (with_category cat <$> take 15 streams))
        [] (iptv_groups def).

(** The body of the loop over the table, up to the deduplication: the
    candidate list of one category, in the order it is pushed. *)
Definition candidates (cat : string) (def : descriptor)
    (iptvByGroup ytByCategory tmdbByCategory custom user : listing) : list entry :=
  let entries := from_groups cat def iptvByGroup in
  let ytItems := Entry.at_key ytByCategory cat in
  let entries := entries ++ (with_category cat <$> ytItems) in
  let tmdbItems := Entry.at_key tmdbByCategory cat in
  let entries := entries ++ (with_category cat <$> tmdbItems) in
  let customItems := Entry.at_key custom cat in
  let entries := entries ++ (with_source cat "custom" <$> customItems) in
  let userItems := Entry.at_key user cat in
  entries ++ (with_source cat "user" <$> userItems).

(** One pass of the loop: a fresh [seen] set, then the assignment
    [output.categories[cat] = deduped]. *)
Definition merge_category (iptvByGroup ytByCategory tmdbByCategory custom user : listing)
    (out : listing) (row : string * descriptor) : listing :=
  let '(cat, def) := row in
  let entries := candidates cat def iptvByGroup ytByCategory tmdbByCategory custom user in
  let deduped := dedup JSSet.empty entries in
  <[cat := deduped]> out.

(** [now] is the text of [new Date().toISOString()]; the lines written to
    the console are left out. *)
Definition mergeAll (now : string)
    (iptvByGroup ytByCategory tmdbByCategory custom user : listing) : document :=
  {| updated := now;
     version := "1.0";
     categories :=
       foldl (merge_category iptvByGroup ytByCategory tmdbByCategory custom user)
             ∅ CATEGORIES |}.

End Merge.

(** ** Sample inputs *)

Module Sample.
Import Table Merge.

(** [{ name, url }]. *)
Definition channel (name url : string) : entry :=
  <["url" := VStr url]> (<["name" := VStr name]> ∅).

(** A playlist with one group that the categories [news], [politics] and
    [general] all draw from, holding the same URL twice. *)
Definition iptvByGroup : listing :=
  {[ "General" := [channel "One" "http://one.example/live.m3u8";
                   channel "One again" "http://one.example/live.m3u8"] ]}.

(** Curated entries for [news]: one without a URL, one with an empty URL,
    one that repeats a playlist URL, and a new one. *)
Definition custom : listing :=
  {[ "news" := [ <["name" := VStr "No URL"]> ∅;
                 channel "Empty URL" "";
                 channel "Curated one" "http://one.example/live.m3u8";
                 channel "Curated two" "http://two.example/live.m3u8" ] ]}.

Definition now : string := "2024-01-01T00:00:00.000Z".

Definition document : Merge.document := mergeAll now iptvByGroup ∅ ∅ custom ∅.

(** The [news] list of that document. *)
Definition news : list entry :=
  [ with_category "news" (channel "One" "http://one.example/live.m3u8");
    with_source "news" "custom" (channel "Curated two" "http://two.example/live.m3u8") ].

(** Its [general] list. *)
Definition general : list entry :=
  [ with_category "general" (channel "One" "http://one.example/live.m3u8") ].

Definition news_row : descriptor :=
  {| iptv_groups := ["News"; "General"]; yt_query := "news live stream"; tmdb_genre_id := 10763 |}.


Definition playlist : string :=
  "#EXTINF:-1,Channel A" +:+ String Str.LF
    ("#EXTVLCOPT:http-user-agent=Mozilla" +:+ String Str.LF "http://a.example/live.m3u8").

Definition channel_a : entry :=
  Playlist.to_entry
    {| Playlist.name := "Channel A"; Playlist.logo := ""; Playlist.id := "";
       Playlist.group := "General"; Playlist.source := "iptv-org"; Playlist.type := "live" |}
    "http://a.example/live.m3u8".

(** A metadata source that answers every request with one show. *)
Definition show : TMDB.result :=
  {| TMDB.name := Some "A show"; TMDB.original_name := None; TMDB.id := 1399;
     TMDB.poster_path := Some "/poster.jpg"; TMDB.overview := Some "About the show." |}.

Definition tmdb_net : Net.network :=
  λ _ _, Some {| TMDB.results := Some [show] |}.

Definition politics_row : descriptor :=
  {| iptv_groups := ["News"; "General"]; yt_query := "politics documentary"; tmdb_genre_id := 10763 |}.

(** A search result with a video id, and one without. *)
Definition video (v title : string) : YouTube.item :=
  {| YouTube.id := Some {| YouTube.videoId := Some v |};
     YouTube.snippet := {| YouTube.title := VStr title;
                           YouTube.thumbnails := None;
                           YouTube.description := Some "A video." |} |}.

Definition channel_result : YouTube.item :=
  {| YouTube.id := Some {| YouTube.videoId := None |};
     YouTube.snippet := {| YouTube.title := VStr "A channel";
                           YouTube.thumbnails := None;
                           YouTube.description := None |} |}.

(** A video source that answers with two results, one of them a video. *)
Definition yt_net : Net.network :=
  λ _ _, Some {| YouTube.items := Some [video "v1" "One"; channel_result] |}.

(** A video source that answers with nine videos, whatever was asked. *)
Definition nine_videos : list YouTube.item :=
  [ video "v1" "One"; video "v2" "Two"; video "v3" "Three"; video "v4" "Four";
    video "v5" "Five"; video "v6" "Six"; video "v7" "Seven"; video "v8" "Eight";
    video "v9" "Nine" ].

Definition yt_net_nine : Net.network :=
  λ _ _, Some {| YouTube.items := Some nine_videos |}.

(** A data directory with a curated file that holds [null], a user file
    that is cut short, and a history file that holds a list. *)
Definition files : gmap string string :=
  {[ "data/custom_channels.json" := "null";
     "data/user_channels.json" := "{";
     "data/url_history.json" := "[]" ]}.

Definition host : Local.host := Local.host_of "data" files.

End Sample.

(** ** More sample inputs *)

Module More.
Import Table Merge.

(** Two persisted URLs that are no defaults. *)
Definition persisted : list value :=
  [ VStr "https://example.org/a"; VStr "https://example.org/b" ].

(** A persisted list that repeats a default and itself. *)
Definition repeated : list value :=
  [ VStr "https://en.wikipedia.org/wiki/Internet";
    VStr "https://example.org/a";
    VStr "https://example.org/a" ].

(** Curated music channels, all with a URL of their own. *)
Definition curated : listing :=
  {[ "music" := [ Sample.channel "Jazz" "http://jazz.example/live.m3u8";
                  Sample.channel "Rock" "http://rock.example/live.m3u8" ] ]}.

Definition music_row : descriptor :=
  {| iptv_groups := ["Music"]; yt_query := "music live stream"; tmdb_genre_id := 10749 |}.

(** A text of two URL lines that nothing announces. *)
Definition bare_urls : string :=
  "http://a.example/live.m3u8" +:+ String Str.LF "http://b.example/live.m3u8".

(** A metadata line whose group is the name of a method. *)
Definition method_line : string :=
  "#EXTINF:-1 group-title=" +:+ String Str.dquote ("toString" +:+ String Str.dquote ",Channel T").

(** A metadata line whose group has a comma in it, cut at that comma. *)
Definition before_comma : string :=
  "#EXTINF:-1 group-title=" +:+ String Str.dquote "News".

Definition after_comma : string :=
  " Local" +:+ String Str.dquote ",Channel N".

End More.

(** ** What the video search answers *)

Module Contract.
Import YouTube.


End Contract.

(** ** Sample inputs with local duplicates and a crowded group *)

Module Crowd.
Import Table Merge.

(** User-submitted entries for [news]: one that repeats a curated URL and
    a new one. *)
Definition user : listing :=
  {[ "news" := [ Sample.channel "User two" "http://two.example/live.m3u8";
                 Sample.channel "User three" "http://three.example/live.m3u8" ] ]}.


(** [n] streams with URLs of their own. *)
Definition streams (n : nat) : list entry :=
  (λ k, Sample.channel ("Stream " +:+ pretty k) ("http://crowd.example/" +:+ pretty k))
    <$> seq 0 n.

(** A playlist with 20 streams in the group [News] and 2 in [General]. *)
Definition iptvByGroup : listing :=
  {[ "News" := streams 20;
     "General" := [ Sample.channel "One" "http://one.example/live.m3u8";
                    Sample.channel "Two" "http://two.example/live.m3u8" ] ]}.

End Crowd.

(** ** Proof steps *)

(** [String c a +:+ b] is [String c (a +:+ b)]. *)
Ltac push_char :=
  repeat match goal with
         | |- context [String ?c ?a +:+ ?b] =>
             change (String c a +:+ b) with (String c (a +:+ b))
         end.

(** * Properties *)

Section JSSetFacts.
Context {A : Type} `{EqDecision A}.
Implicit Types (s l : list A) (v : A).

Lemma has_spec s v : JSSet.has s v = true ↔ v ∈ s.
Proof. unfold JSSet.has. apply bool_decide_eq_true. Qed.

Lemma add_known s v : v ∈ s → JSSet.add s v = s.
Proof.
  intros Hin. unfold JSSet.add.
  destruct (JSSet.has s v) eqn:E; [done|].
  apply has_spec in Hin. congruence.
Qed.

Lemma add_fresh s v : v ∉ s → JSSet.add s v = s ++ [v].
Proof.
  intros Hin. unfold JSSet.add.
  destruct (JSSet.has s v) eqn:E; [|done].
  apply has_spec in E. contradiction.
Qed.

(** Adding elements that are all there already changes nothing. *)
Lemma foldl_add_known l : ∀ s, (∀ x, x ∈ l → x ∈ s) → foldl JSSet.add s l = s.
Proof.
  induction l as [|x l IH]; intros s Hall; [done|].
  cbn [foldl]. rewrite add_known by (apply Hall; left).
  apply IH. intros y Hy. apply Hall. by right.
Qed.

(** Adding a duplicate-free run of new elements appends it. *)
Lemma foldl_add_fresh l : ∀ s, NoDup (s ++ l) → foldl JSSet.add s l = s ++ l.
Proof.
  induction l as [|x l IH]; intros s Hnd; [by rewrite app_nil_r|].
  cbn [foldl].
  assert (x ∉ s) as Hx.
  { apply NoDup_app in Hnd as (_ & Hdisj & _). intros Hin.
    apply (Hdisj x Hin). left. }
  rewrite add_fresh by done.
  rewrite IH; rewrite <- (assoc_L (++)); done.
Qed.

(** The set grows at its end and never holds an element twice. *)
Lemma foldl_add_extends l : ∀ s,
  ∃ r, foldl JSSet.add s l = s ++ r ∧ (NoDup s → NoDup (s ++ r)).
Proof.
  induction l as [|x l IH]; intros s.
  - exists []. by rewrite app_nil_r.
  - cbn [foldl]. destruct (decide (x ∈ s)) as [Hin|Hin].
    + rewrite add_known by done. apply IH.
    + rewrite add_fresh by done.
      destruct (IH (s ++ [x])) as (r & Heq & Hnd).
      exists (x :: r). rewrite Heq, <- (assoc_L (++)). split; [done|].
      intros Hs. change (x :: r) with ([x] ++ r).
      rewrite (assoc_L (++) s [x] r). apply Hnd.
      apply NoDup_app. split_and!; [done| |apply NoDup_singleton].
      intros y Hy ->%list_elem_of_singleton. contradiction.
Qed.

End JSSetFacts.


(** ** History Builder: the cap, the defaults and idempotence *)

Section HistoryFacts.
Import History.

Lemma defaults_length : length defaults = 10.
Proof. reflexivity. Qed.

Lemma defaults_NoDup : NoDup defaults.
Proof. apply (bool_decide_unpack _). vm_compute. exact I. Qed.

Lemma defaults_as_set : JSSet.of_iterable defaults = defaults.
Proof.
  unfold JSSet.of_iterable, JSSet.empty.
  rewrite (foldl_add_fresh defaults []); [done|]. apply defaults_NoDup.
Qed.

(** The merged list starts with the defaults and repeats nothing. *)
Lemma merged_shape (xs : list value) :
  ∃ r, JSSet.of_iterable (defaults ++ xs) = defaults ++ r ∧ NoDup (defaults ++ r).
Proof.
  unfold JSSet.of_iterable. rewrite foldl_app.
  fold (JSSet.of_iterable defaults). rewrite defaults_as_set.
  destruct (foldl_add_extends xs defaults) as (r & Heq & Hnd).
  exists r. split; [done|]. apply Hnd, defaults_NoDup.
Qed.

Lemma buildUrlHistory_shape existing :
  ∃ r, buildUrlHistory existing = defaults ++ r
       ∧ NoDup (defaults ++ r) ∧ length r ≤ 40.
Proof.
  unfold buildUrlHistory, JSSet.spread.
  destruct (merged_shape (match existing with Some l => l | None => [] end))
    as (r & -> & Hnd).
  exists (take 40 r). split_and!.
  - rewrite take_app, defaults_length.
    rewrite take_ge by (rewrite defaults_length; lia). done.
  - apply NoDup_app in Hnd as (Hd & Hdisj & Hr).
    apply NoDup_app. split_and!; [done| |].
    + intros x Hx Hin. apply (Hdisj x Hx).
      by apply (subseteq_take 40 r).
    + by apply (sublist_NoDup _ r), sublist_take.
  - rewrite length_take. lia.
Qed.

(** C7: the history never has more than 50 elements, and the ten default
    URLs are all in it, as its first ten elements. *)
Theorem buildUrlHistory_cap_defaults_first (existing : option (list value)) :
  length (buildUrlHistory existing) ≤ 50
  ∧ length defaults = 10
  ∧ take 10 (buildUrlHistory existing) = defaults
  ∧ defaults ⊆ buildUrlHistory existing.
Proof.
  destruct (buildUrlHistory_shape existing) as (r & -> & _ & Hlen).
  split_and!.
  - rewrite length_app, defaults_length. lia.
  - apply defaults_length.
  - rewrite take_app, defaults_length. cbn [Nat.sub take].
    rewrite take_ge by (rewrite defaults_length; lia). apply app_nil_r.
  - intros x Hx. apply elem_of_app. by left.
Qed.

(** C6: building the history from its own output gives that output back. *)
Theorem buildUrlHistory_idempotent (existing : option (list value)) :
  buildUrlHistory (Some (buildUrlHistory existing)) = buildUrlHistory existing.
Proof.
  destruct (buildUrlHistory_shape existing) as (r & Hout & Hnd & Hlen).
  rewrite Hout. unfold buildUrlHistory at 1, JSSet.spread, JSSet.of_iterable.
  rewrite !foldl_app. fold (JSSet.of_iterable defaults). rewrite defaults_as_set.
  rewrite (foldl_add_known defaults defaults) by done.
  rewrite foldl_add_fresh by done.
  apply take_ge. rewrite length_app, defaults_length. lia.
Qed.

End HistoryFacts.

(** ** Merge Engine: deduplication *)

Section DedupFacts.
Import Merge.
Implicit Types (seen : list value) (e : entry) (l a b : list entry).

Lemma truthy_str (s : string) : truthy (VStr s) = true ↔ s ≠ "".
Proof.
  cbn. rewrite negb_true_iff, bool_decide_eq_false. done.
Qed.

Lemma url_with_category cat e : Entry.url (with_category cat e) = Entry.url e.
Proof. unfold Entry.url, with_category. by rewrite lookup_insert_ne. Qed.


(** The test of the callback, as a proposition. *)
Lemma dedup_cons seen e l :
  dedup seen (e :: l) =
    if decide (truthy (Entry.url e) = true ∧ Entry.url e ∉ seen)
    then e :: dedup (seen ++ [Entry.url e]) l
    else dedup seen l.
Proof.
  cbn [dedup]. unfold JSSet.add.
  destruct (truthy (Entry.url e)) eqn:Ht; cbn [negb orb].
  - destruct (JSSet.has seen (Entry.url e)) eqn:Hh.
    + apply has_spec in Hh. rewrite decide_False; [done|]. tauto.
    + rewrite decide_True; [done|]. split; [done|].
      intros Hin%has_spec. congruence.
  - rewrite decide_False; [done|]. intros [? _]. done.
Qed.

(** Every entry kept is one of the entries given. *)
Lemma dedup_from_input l : ∀ seen e, e ∈ dedup seen l → e ∈ l.
Proof.
  induction l as [|x l IH]; intros seen e; [done|].
  rewrite dedup_cons. case_decide.
  - intros [->|Hin]%elem_of_cons; [left|right; by eapply IH].
  - intros Hin. right. by eapply IH.
Qed.

(** Every entry kept has a truthy [url]. *)
Lemma dedup_truthy l : ∀ seen e, e ∈ dedup seen l → truthy (Entry.url e) = true.
Proof.
  induction l as [|x l IH]; intros seen e; [by intros ?%elem_of_nil|].
  rewrite dedup_cons. case_decide as Hx.
  - intros [->|Hin]%elem_of_cons; [tauto|by eapply IH].
  - apply IH.
Qed.

(** No entry kept has a URL that was seen before. *)
Lemma dedup_unseen l : ∀ seen e, e ∈ dedup seen l → Entry.url e ∉ seen.
Proof.
  induction l as [|x l IH]; intros seen e; [by intros ?%elem_of_nil|].
  rewrite dedup_cons. case_decide as Hx.
  - intros [->|Hin]%elem_of_cons; [tauto|].
    apply IH in Hin. intros Hs. apply Hin, elem_of_app. by left.
  - apply IH.
Qed.

(** The URLs of the entries kept are pairwise distinct. *)
Lemma dedup_NoDup l : ∀ seen, NoDup (Entry.url <$> dedup seen l).
Proof.
  induction l as [|x l IH]; intros seen; [apply NoDup_nil_2|].
  rewrite dedup_cons. case_decide as Hx; [|apply IH].
  rewrite fmap_cons. apply NoDup_cons. split; [|apply IH].
  intros (y & Hy & Hin)%list_elem_of_fmap.
  apply dedup_unseen in Hin. apply Hin, elem_of_app. right.
  rewrite Hy. apply list_elem_of_singleton. done.
Qed.

(** The set after a run of entries is the set before it with the URLs of
    the entries kept. *)
Lemma dedup_app a : ∀ seen b,
  dedup seen (a ++ b) =
    dedup seen a ++ dedup (seen ++ (Entry.url <$> dedup seen a)) b.
Proof.
  induction a as [|x a IH]; intros seen b.
  - cbn. by rewrite app_nil_r.
  - rewrite <- app_comm_cons, !dedup_cons. case_decide as Hx; [|apply IH].
    rewrite IH, fmap_cons, <- app_comm_cons.
    by rewrite <- (assoc_L (++) seen).
Qed.

(** The truthy URLs of a run of entries are those of the entries kept,
    up to what was seen before. *)
Lemma dedup_covers l : ∀ seen e,
  e ∈ l → truthy (Entry.url e) = true →
  Entry.url e ∈ seen ++ (Entry.url <$> dedup seen l).
Proof.
  induction l as [|x l IH]; intros seen e; [by intros ?%elem_of_nil|].
  rewrite dedup_cons. intros [->|Hin]%elem_of_cons Ht.
  - case_decide as Hx.
    + apply elem_of_app. right. rewrite fmap_cons. left.
    + apply elem_of_app. left.
      destruct (decide (Entry.url x ∈ seen)); [done|]. tauto.
  - case_decide as Hx; [|by apply IH].
    specialize (IH (seen ++ [Entry.url x]) e Hin Ht).
    rewrite <- (assoc_L (++)) in IH. done.
Qed.

(** The entries kept are entries given, in their order. *)
Lemma dedup_sublist (l : list entry) : ∀ seen, dedup seen l `sublist_of` l.
Proof.
  induction l as [|x l IH]; intros seen; [done|].
  rewrite dedup_cons. case_decide.
  - apply sublist_skip, IH.
  - apply sublist_cons, IH.
Qed.

(** A list whose URLs are there, not empty, distinct and unseen is kept
    whole. *)
Lemma dedup_clean (l : list entry) : ∀ seen,
  Forall (λ e, truthy (Entry.url e) = true) l →
  NoDup (seen ++ (Entry.url <$> l)) →
  dedup seen l = l.
Proof.
  induction l as [|x l IH]; intros seen Ht Hnd; [done|].
  apply Forall_cons in Ht as [Hx Ht]. rewrite fmap_cons in Hnd.
  rewrite dedup_cons, decide_True.
  - f_equal. apply IH; [done|]. by rewrite <- (assoc_L (++)).
  - split; [done|]. apply NoDup_app in Hnd as (_ & Hdisj & _).
    intros Hin. apply (Hdisj _ Hin). left.
Qed.

End DedupFacts.

(** ** Merge Engine: the loop over the table *)

Section MergeLoop.
Import Table Merge.
Variables (iptv yt tmdb custom user : listing).

Let body := merge_category iptv yt tmdb custom user.
Let merged (cat : string) (def : descriptor) : list entry :=
  dedup JSSet.empty (candidates cat def iptv yt tmdb custom user).

(** A category the rows do not name keeps what it had. *)
Lemma loop_other (rows : list (string * descriptor)) : ∀ (out : listing) cat,
  cat ∉ rows.*1 → foldl body out rows !! cat = out !! cat.
Proof.
  induction rows as [|[c d] rows IH]; intros out cat Hnot; [done|].
  cbn [foldl]. rewrite IH.
  - unfold body, merge_category. apply lookup_insert_ne.
    intros ->. apply Hnot. rewrite fmap_cons. left.
  - intros Hin. apply Hnot. rewrite fmap_cons. by right.
Qed.

(** A category named once gets the deduplicated candidates of its row. *)
Lemma loop_lookup (rows : list (string * descriptor)) : ∀ (out : listing) i cat def,
  NoDup rows.*1 → rows !! i = Some (cat, def) →
  foldl body out rows !! cat = Some (merged cat def).
Proof.
  induction rows as [|[c d] rows IH]; intros out i cat def Hnd Hi; [done|].
  rewrite fmap_cons in Hnd. apply NoDup_cons in Hnd as [Hc Hnd].
  cbn [foldl]. destruct i as [|i].
  - injection Hi as -> ->. rewrite loop_other by done.
    unfold body, merge_category. apply lookup_insert_eq.
  - by apply (IH _ i).
Qed.

(** Whatever a category holds at the end was there at the start or is the
    deduplicated candidate list of one of its rows. *)
Lemma loop_inv (rows : list (string * descriptor)) : ∀ (out : listing) cat l,
  foldl body out rows !! cat = Some l →
  out !! cat = Some l ∨ ∃ def, (cat, def) ∈ rows ∧ l = merged cat def.
Proof.
  induction rows as [|[c d] rows IH]; intros out cat l Hl; [by left|].
  cbn [foldl] in Hl. apply IH in Hl as [Hl|(def & Hin & ->)].
  - unfold body, merge_category in Hl.
    destruct (decide (c = cat)) as [->|Hne].
    + rewrite lookup_insert_eq in Hl. injection Hl as <-.
      right. exists d. split; [left|done].
    + rewrite lookup_insert_ne in Hl by done. by left.
  - right. exists def. split; [by right|done].
Qed.

Lemma loop_dom (rows : list (string * descriptor)) : ∀ (out : listing),
  dom (foldl body out rows) = dom out ∪ list_to_set rows.*1.
Proof.
  induction rows as [|[c d] rows IH]; intros out.
  - cbn. by rewrite (right_id_L ∅ (∪)).
  - cbn [foldl]. rewrite IH. unfold body, merge_category.
    rewrite dom_insert_L, fmap_cons. cbn [list_to_set fst].
    by rewrite (comm_L (∪) {[c]} (dom out)), (assoc_L (∪)).
Qed.

End MergeLoop.

Section TableFacts.
Import Table.

Lemma CATEGORIES_names :
  CATEGORIES.*1 =
    [ "news"; "technology"; "science"; "history"; "sports"; "music";
      "entertainment"; "nature"; "cooking"; "travel"; "politics"; "business";
      "health"; "kids"; "animation"; "general" ].
Proof. reflexivity. Qed.

Lemma CATEGORIES_NoDup : NoDup CATEGORIES.*1.
Proof. apply (bool_decide_unpack _). vm_compute. exact I. Qed.

End TableFacts.

(** ** Merge Engine: the Output Document *)

Section MergeAllFacts.
Import Table Merge.

Lemma mergeAll_lookup now iptv yt tmdb custom user i cat def :
  CATEGORIES !! i = Some (cat, def) →
  categories (mergeAll now iptv yt tmdb custom user) !! cat
    = Some (dedup JSSet.empty (candidates cat def iptv yt tmdb custom user)).
Proof.
  intros Hi. unfold mergeAll. cbn [categories].
  eapply loop_lookup; [apply CATEGORIES_NoDup|done].
Qed.

Lemma mergeAll_inv now iptv yt tmdb custom user cat l :
  categories (mergeAll now iptv yt tmdb custom user) !! cat = Some l →
  ∃ def, (cat, def) ∈ CATEGORIES
         ∧ l = dedup JSSet.empty (candidates cat def iptv yt tmdb custom user).
Proof.
  intros Hl. unfold mergeAll in Hl. cbn [categories] in Hl.
  apply loop_inv in Hl as [Hl|Hl]; [|done].
  by rewrite lookup_empty in Hl.
Qed.

(** C1: in the Output Document every entry of every category has a [url]
    that is there and not empty (not falsy), and within one category the
    [url] values are pairwise distinct. *)
Theorem mergeAll_urls_nonempty_distinct now iptv yt tmdb custom user cat l :
  categories (mergeAll now iptv yt tmdb custom user) !! cat = Some l →
  Forall (λ e, ∃ v, e !! "url" = Some v ∧ truthy v = true ∧ v ≠ VStr "") l
  ∧ NoDup (Entry.url <$> l).
Proof.
  intros (def & _ & ->)%mergeAll_inv. split; [|apply dedup_NoDup].
  apply Forall_forall. intros e He%dedup_truthy.
  unfold Entry.url in He. destruct (e !! "url") as [v|] eqn:Hv; [|done].
  exists v. split_and!; [done..|]. intros ->. done.
Qed.

(** The candidates of the other sources come after those of the playlist. *)
Lemma candidates_split cat def iptv yt tmdb custom user :
  candidates cat def iptv yt tmdb custom user =
    from_groups cat def iptv
    ++ (with_category cat <$> Entry.at_key yt cat)
    ++ (with_category cat <$> Entry.at_key tmdb cat)
    ++ (with_source cat "custom" <$> Entry.at_key custom cat)
    ++ (with_source cat "user" <$> Entry.at_key user cat).
Proof. unfold candidates. by rewrite <- !(assoc_L (++)). Qed.

(** The candidates of the playlist: the first 15 streams of each group of
    the category, tagged with the category. *)
Lemma from_groups_elem cat def (iptv : listing) (e : entry) :
  e ∈ from_groups cat def iptv ↔
  ∃ group s, group ∈ iptv_groups def
             ∧ s ∈ take 15 (Entry.at_key iptv group)
             ∧ e = with_category cat s.
Proof.
  unfold from_groups.
  assert (∀ groups acc,
            foldl (λ entries group,
                     entries ++ (with_category cat <$> take 15 (Entry.at_key iptv group)))
                  acc groups
            = acc ++ (groups ≫= λ group,
                        with_category cat <$> take 15 (Entry.at_key iptv group))) as ->.
  { intros groups. induction groups as [|g groups IH]; intros acc.
    - by rewrite app_nil_r.
    - cbn [foldl]. rewrite IH. cbn. by rewrite (assoc_L (++)). }
  rewrite app_nil_l, list_elem_of_bind. split.
  - intros (group & (s & -> & Hs)%list_elem_of_fmap & Hgroup). eauto.
  - intros (group & s & Hgroup & Hs & ->). exists group. split; [|done].
    by apply list_elem_of_fmap_2.
Qed.

(** The first candidate with a given truthy URL is kept at its place, and
    nothing else kept has that URL. *)
Lemma dedup_first_wins (a b : list entry) (e : entry) :
  truthy (Entry.url e) = true → Entry.url e ∉ Entry.url <$> a →
  ∃ b', dedup JSSet.empty (a ++ e :: b) = dedup JSSet.empty a ++ e :: b'
        ∧ Forall (λ x, Entry.url x ≠ Entry.url e) (dedup JSSet.empty a ++ b').
Proof.
  intros Ht Hfresh. rewrite dedup_app, dedup_cons.
  unfold JSSet.empty. rewrite app_nil_l.
  assert (Entry.url e ∉ Entry.url <$> dedup [] a) as Hkept.
  { intros (x & Hx & Hin)%list_elem_of_fmap. apply Hfresh.
    rewrite Hx. by eapply list_elem_of_fmap_2, dedup_from_input. }
  rewrite decide_True by done.
  eexists. split; [done|]. apply Forall_app. split; apply Forall_forall.
  - intros x Hx Heq. apply Hkept. rewrite <- Heq. by apply list_elem_of_fmap_2.
  - intros x Hx%dedup_unseen Heq. apply Hx, elem_of_app. right.
    rewrite Heq. by apply list_elem_of_singleton.
Qed.

(** C2: among the candidates of a category, taken in the order playlist,
    video search, metadata, curated, user-submitted, the first one with a
    given URL (a [url] that is there and not empty) is the entry kept, at
    its place, and no later one with that URL is kept.  In particular, when
    a stream taken from one of the category's playlist groups and a curated
    entry of the category have the same URL, the entry kept for that URL is
    a playlist stream, and nothing after the playlist part of the list,
    where a curated entry would be, has that URL. *)
Theorem mergeAll_first_seen_wins now iptv yt tmdb custom user i cat def l :
  CATEGORIES !! i = Some (cat, def) →
  categories (mergeAll now iptv yt tmdb custom user) !! cat = Some l →
  candidates cat def iptv yt tmdb custom user =
    from_groups cat def iptv
    ++ (with_category cat <$> Entry.at_key yt cat)
    ++ (with_category cat <$> Entry.at_key tmdb cat)
    ++ (with_source cat "custom" <$> Entry.at_key custom cat)
    ++ (with_source cat "user" <$> Entry.at_key user cat)
  ∧ (∀ a e b,
       candidates cat def iptv yt tmdb custom user = a ++ e :: b →
       truthy (Entry.url e) = true → Entry.url e ∉ Entry.url <$> a →
       ∃ b', l = dedup JSSet.empty a ++ e :: b'
             ∧ Forall (λ x, Entry.url x ≠ Entry.url e) (dedup JSSet.empty a ++ b'))
  ∧ (∀ group s c,
       group ∈ iptv_groups def → s ∈ take 15 (Entry.at_key iptv group) →
       c ∈ Entry.at_key custom cat →
       Entry.url s = Entry.url c → truthy (Entry.url c) = true →
       ∃ kept rest,
         l = kept ++ rest
         ∧ kept = dedup JSSet.empty (from_groups cat def iptv)
         ∧ Forall (λ x, Entry.url x ≠ Entry.url c) rest
         ∧ ∃ group' s',
             group' ∈ iptv_groups def ∧ s' ∈ take 15 (Entry.at_key iptv group')
             ∧ with_category cat s' ∈ kept ∧ Entry.url s' = Entry.url c).
Proof.
  intros Hi Hl. rewrite (mergeAll_lookup _ _ _ _ _ _ _ _ _ Hi) in Hl.
  injection Hl as <-. split_and!.
  - apply candidates_split.
  - intros a e b -> Ht Hfresh. by apply dedup_first_wins.
  - intros group s c Hgroup Hs Hc Heq Ht. rewrite candidates_split, dedup_app.
    eexists _, _. split_and!; [done..| |].
    + apply Forall_forall. intros x Hx%dedup_unseen Hxc. apply Hx.
      rewrite Hxc. unfold JSSet.empty. rewrite app_nil_l.
      assert (with_category cat s ∈ from_groups cat def iptv) as Hin
        by (apply from_groups_elem; eauto).
      apply (dedup_covers _ JSSet.empty) in Hin.
      * by rewrite url_with_category, Heq in Hin.
      * by rewrite url_with_category, Heq.
    + assert (with_category cat s ∈ from_groups cat def iptv) as Hin
        by (apply from_groups_elem; eauto).
      apply (dedup_covers _ JSSet.empty) in Hin; [|by rewrite url_with_category, Heq].
      unfold JSSet.empty in Hin. rewrite app_nil_l, url_with_category, Heq in Hin.
      apply list_elem_of_fmap in Hin as (s' & Hu & Hkept).
      pose proof (dedup_from_input _ _ _ Hkept) as (group' & s0 & Hg' & Hs0 & ->)%from_groups_elem.
      exists group', s0. split_and!; [done..|].
      by rewrite Hu, url_with_category.
Qed.


End MergeAllFacts.

(** ** Merge Engine: the properties on a sample run *)

Section MergeSample.
Import Table Merge.

Lemma sample_news : categories Sample.document !! "news" = Some Sample.news.
Proof. vm_compute. reflexivity. Qed.

Lemma sample_general : categories Sample.document !! "general" = Some Sample.general.
Proof. vm_compute. reflexivity. Qed.

Lemma mergeAll_urls_nonempty_distinct_witness :
  Forall (λ e, ∃ v, e !! "url" = Some v ∧ truthy v = true ∧ v ≠ VStr "") Sample.news
  ∧ NoDup (Entry.url <$> Sample.news).
Proof.
  apply (mergeAll_urls_nonempty_distinct Sample.now Sample.iptvByGroup ∅ ∅ Sample.custom ∅ "news").
  vm_compute. reflexivity.
Defined.

Lemma mergeAll_first_seen_wins_witness :
  ∃ kept rest,
    Sample.news = kept ++ rest
    ∧ kept = dedup JSSet.empty (from_groups "news" Sample.news_row Sample.iptvByGroup)
    ∧ Forall (λ x, Entry.url x ≠ VStr "http://one.example/live.m3u8") rest
    ∧ ∃ group' s',
        group' ∈ iptv_groups Sample.news_row
        ∧ s' ∈ take 15 (Entry.at_key Sample.iptvByGroup group')
        ∧ with_category "news" s' ∈ kept
        ∧ Entry.url s' = VStr "http://one.example/live.m3u8".
Proof.
  assert (CATEGORIES !! 0 = Some ("news", Sample.news_row)) as Hrow by reflexivity.
  assert (categories (mergeAll Sample.now Sample.iptvByGroup ∅ ∅ Sample.custom ∅) !! "news"
          = Some Sample.news) as Hnews by (vm_compute; reflexivity).
  destruct (mergeAll_first_seen_wins _ _ _ _ _ _ _ _ _ _ Hrow Hnews) as (_ & _ & Hcurated).
  apply (Hcurated "General"
           (Sample.channel "One" "http://one.example/live.m3u8")
           (Sample.channel "Curated one" "http://one.example/live.m3u8")).
  - apply (list_elem_of_lookup_2 _ 1). reflexivity.
  - apply (list_elem_of_lookup_2 _ 0). vm_compute. reflexivity.
  - apply (list_elem_of_lookup_2 _ 2). vm_compute. reflexivity.
  - vm_compute. reflexivity.
  - vm_compute. reflexivity.
Defined.


(** C10: each category is deduplicated on its own, from an empty set of
    seen URLs, so one URL can be in the lists of two categories: here in
    those of [news] and [general]. *)
Theorem mergeAll_dedup_is_per_category :
  (∀ now iptv yt tmdb custom user i cat def,
     CATEGORIES !! i = Some (cat, def) →
     categories (mergeAll now iptv yt tmdb custom user) !! cat
       = Some (dedup JSSet.empty (candidates cat def iptv yt tmdb custom user)))
  ∧ ∃ now iptv yt tmdb custom user l1 l2 e1 e2,
      categories (mergeAll now iptv yt tmdb custom user) !! "news" = Some l1
      ∧ categories (mergeAll now iptv yt tmdb custom user) !! "general" = Some l2
      ∧ e1 ∈ l1 ∧ e2 ∈ l2
      ∧ Entry.url e1 = VStr "http://one.example/live.m3u8"
      ∧ Entry.url e2 = VStr "http://one.example/live.m3u8".
Proof.
  split; [intros; by eapply mergeAll_lookup|].
  exists Sample.now, Sample.iptvByGroup, ∅, ∅, Sample.custom, ∅,
         Sample.news, Sample.general,
         (with_category "news" (Sample.channel "One" "http://one.example/live.m3u8")),
         (with_category "general" (Sample.channel "One" "http://one.example/live.m3u8")).
  split_and!.
  - apply sample_news.
  - apply sample_general.
  - left.
  - left.
  - vm_compute. reflexivity.
  - vm_compute. reflexivity.
Qed.

End MergeSample.

(** ** Playlist Fetcher: entries are made of two lines *)

Section PlaylistFacts.
Import Playlist.

Lemma pair_with_app between (lines more : list string) (e : entry) :
  pair_with between lines e → pair_with between (lines ++ more) e.
Proof.
  intros (i & j & meta & url & Hij & Hi & Hm & Hj & Hu & He & Hbetween).
  exists i, j, meta, url. split_and!; try done.
  - by apply lookup_app_l_Some.
  - by apply lookup_app_l_Some.
  - intros k line Hk Hline. apply (Hbetween k line Hk).
    apply lookup_lt_Some in Hj.
    rewrite lookup_app_l in Hline by lia. done.
Qed.

Lemma reading_start : reading [] {| byGroup := ∅; current := None |}.
Proof. split; [intros g streams e Hg; cbn in Hg; by rewrite lookup_empty in Hg|done]. Qed.

Lemma to_entry_group c url : to_entry c url !! "group" = Some (VStr (group c)).
Proof. unfold to_entry. rewrite !lookup_insert_ne by done. apply lookup_insert_eq. Qed.

(** Filing keeps the entries there were and adds at most the new one. *)
Lemma file_under_entries (groups groups' : listing) g e g' streams' e' :
  file_under groups g e = Normal groups' →
  groups' !! g' = Some streams' → e' ∈ streams' →
  (∃ streams, groups !! g' = Some streams ∧ e' ∈ streams) ∨ (g' = g ∧ e' = e).
Proof.
  unfold file_under. intros Hfile Hg' He'.
  destruct (groups !! g) as [streams|] eqn:Hg.
  - destruct (length streams <? 60); simplify_eq; [|eauto].
    destruct (decide (g = g')) as [<-|Hne].
    + rewrite lookup_insert_eq in Hg'. simplify_eq.
      apply elem_of_app in He' as [He' | ->%list_elem_of_singleton]; eauto.
    + rewrite lookup_insert_ne in Hg' by done. eauto.
  - case_bool_decide; [simplify_eq; eauto|].
    case_bool_decide; [done|]. simplify_eq.
    destruct (decide (g = g')) as [<-|Hne].
    + rewrite lookup_insert_eq in Hg'. simplify_eq.
      apply list_elem_of_singleton in He' as ->. eauto.
    + rewrite lookup_insert_ne in Hg' by done. eauto.
Qed.

Lemma step_reading seen st line st' :
  reading seen st → step st line = Normal st' → reading (seen ++ [line]) st'.
Proof.
  intros [Hentries Hcurrent]. unfold step.
  assert (∀ g streams e, byGroup st !! g = Some streams → e ∈ streams →
          next_url_pair (seen ++ [line]) e ∧ e !! "group" = Some (VStr g)) as Hkeep.
  { intros g streams e Hg He. destruct (Hentries g streams e Hg He).
    split; [by apply pair_with_app|done]. }
  destruct (Str.startsWith "#EXTINF" (Str.trim line)) eqn:Hmeta.
  - (* a metadata line *)
    intros [= <-]. split; [exact Hkeep|]. cbn [current].
    intros c [= <-]. exists (length seen), line. split_and!.
    + by apply list_lookup_middle.
    + done.
    + done.
    + intros k l Hk Hl. apply lookup_lt_Some in Hl.
      rewrite length_app in Hl. cbn in Hl. lia.
  - destruct (Str.startsWith "http" (Str.trim line)) eqn:Hhttp.
    + destruct (current st) as [c|] eqn:Hc.
      * (* a URL line after a metadata line *)
        destruct (file_under (byGroup st) (group c) (to_entry c (Str.trim line)))
          as [groups'|] eqn:Hfile; [|done].
        intros [= <-]. split; [|done]. cbn [byGroup].
        intros g streams e Hg He.
        destruct (file_under_entries _ _ _ _ _ _ _ Hfile Hg He)
          as [(old & Hold & Hin)|[-> ->]]; [by eapply Hkeep|].
        split; [|apply to_entry_group].
        destruct (Hcurrent c eq_refl) as (i & meta & Hi & Him & -> & Hbetween).
        exists i, (length seen), meta, line. split_and!.
        -- by apply lookup_lt_Some in Hi.
        -- by apply lookup_app_l_Some.
        -- done.
        -- by apply list_lookup_middle.
        -- unfold is_url, is_meta. by rewrite Hmeta, Hhttp.
        -- done.
        -- intros k l [Hk1 Hk2] Hl. apply (Hbetween k l Hk1).
           by rewrite lookup_app_l in Hl.
      * (* a URL line that nothing announced *)
        intros [= <-]. split; [exact Hkeep|]. intros c Hc'. congruence.
    + (* any other line *)
      intros [= <-]. split; [exact Hkeep|].
      intros c Hc. destruct (Hcurrent c Hc) as (i & meta & Hi & Him & -> & Hbetween).
      exists i, meta. split_and!; [by apply lookup_app_l_Some|done..|].
      intros k l Hk Hl.
      destruct (decide (k < length seen)) as [Hlt|Hge].
      * rewrite lookup_app_l in Hl by done. by apply (Hbetween k).
      * apply lookup_lt_Some in Hl as Hlen. rewrite length_app in Hlen. cbn in Hlen.
        assert (k = length seen) as -> by lia.
        rewrite list_lookup_middle in Hl by done. injection Hl as <-.
        unfold is_url, is_meta. by rewrite Hmeta, Hhttp.
Qed.

Lemma loop_reading (lines : list string) : ∀ seen st st',
  reading seen st → for_of step st lines = Normal st' → reading (seen ++ lines) st'.
Proof.
  induction lines as [|line lines IH]; intros seen st st' Hst.
  - cbn. intros [= <-]. by rewrite app_nil_r.
  - cbn [for_of]. destruct (step st line) as [st1|] eqn:Hstep; [|done].
    cbn [Completion.bind]. intros Hrest.
    rewrite (cons_middle line seen lines), (assoc_L (++)).
    eapply IH; [|done]. by eapply step_reading.
Qed.

End PlaylistFacts.

Section PlaylistPairs.
Import Playlist.






End PlaylistPairs.

(** ** Metadata Fetcher: the first category to claim a genre id wins *)

Section TMDBFacts.
Import Table TMDB.
Variables (net : Net.network (Data := data)) (key : string).

Lemma first_claims_after_spec (rows : list (string * descriptor)) :
  ∀ earlier cat def,
    (cat, def) ∈ first_claims_after earlier rows →
    ∃ j, rows !! j = Some (cat, def)
         ∧ (tmdb_genre_id def ∉ earlier)
         ∧ ∀ i row, i < j → rows !! i = Some row → tmdb_genre_id (row.2) ≠ tmdb_genre_id def.
Proof.
  induction rows as [|row rows IH]; intros earlier cat def; [by intros ?%elem_of_nil|].
  cbn [first_claims_after]. intros [Hin|Hin]%elem_of_app.
  - case_bool_decide as Hseen; [by apply elem_of_nil in Hin|].
    apply list_elem_of_singleton in Hin as <-.
    exists 0. split_and!; [done..|]. intros i row' Hlt. lia.
  - apply IH in Hin as (j & Hj & Hnot & Hearlier).
    exists (S j). split_and!; [done| |].
    + intros Hin. apply Hnot, elem_of_app. by left.
    + intros [|i] row' Hlt Hrow; cbn in Hrow.
      * simplify_eq. intros Heq. apply Hnot, elem_of_app. right.
        rewrite Heq. by apply list_elem_of_singleton.
      * apply (Hearlier i); [lia|done].
Qed.

(** The loop, from any state whose [seen] set holds the ids of the rows
    before: it sends one request for each first claim, in order, and only
    the categories of first claims get a list. *)
Lemma tmdb_loop (rows : list (string * descriptor)) :
  ∀ earlier st sent st' sent',
    (∀ z, z ∈ seen st ↔ z ∈ earlier) →
    Net.for_of (step net key) st rows sent = (st', sent') →
    sent' = sent ++ (discover key <$> (first_claims_after earlier rows).*2)
    ∧ ∀ cat streams,
        byCategory st' !! cat = Some streams →
        byCategory st !! cat = Some streams
        ∨ ∃ def, (cat, def) ∈ first_claims_after earlier rows.
Proof.
  induction rows as [|[cat def] rows IH]; intros earlier st sent st' sent' Hseen.
  - cbn. intros [= <- <-]. rewrite app_nil_r. eauto.
  - cbn [Net.for_of first_claims_after snd]. unfold Net.bind at 1, step at 1.
    assert (∀ st1, (∀ z, z ∈ seen st1 ↔ z ∈ seen st ∨ z = tmdb_genre_id def) →
                   ∀ z, z ∈ seen st1 ↔ z ∈ earlier ++ [tmdb_genre_id def]) as Hnext.
    { intros st1 H1 z. rewrite H1, elem_of_app, list_elem_of_singleton, Hseen. done. }
    destruct (JSSet.has (seen st) (tmdb_genre_id def)) eqn:Hhas.
    + (* the id was claimed before: no request, no list *)
      apply has_spec in Hhas as Hin. rewrite bool_decide_eq_true_2 by (by apply Hseen).
      cbn [Net.ret app]. intros Hloop.
      apply (IH (earlier ++ [tmdb_genre_id def])) in Hloop; [done|].
      apply Hnext. intros z. split; [by left|]. intros [?| ->]; done.
    + assert (tmdb_genre_id def ∉ seen st) as Hnot.
      { intros Hin%has_spec. congruence. }
      rewrite bool_decide_eq_false_2 by (by rewrite <- Hseen).
      assert (∀ z, z ∈ JSSet.add (seen st) (tmdb_genre_id def)
                   ↔ z ∈ seen st ∨ z = tmdb_genre_id def) as Hadd.
      { intros z. rewrite add_fresh by done.
        by rewrite elem_of_app, list_elem_of_singleton. }
      unfold Net.get, Net.bind.
      destruct (net sent (discover key def)) as [d|]; [destruct (results d) as [rs|]|];
        cbn [Net.ret]; intros Hloop;
        (apply (IH (earlier ++ [tmdb_genre_id def])) in Hloop as [-> Hlists];
           [|by apply Hnext]);
        (split;
           [rewrite !fmap_app; cbn [fmap list_fmap snd]; by rewrite <- (assoc_L (++))|]);
        intros c streams Hc;
        (destruct (Hlists c streams Hc) as [Hold|[d' Hd']];
           [|right; exists d'; apply elem_of_app; by right]).
      * (* a response with results: the category gets its list *)
        cbn [byCategory] in Hold. destruct (decide (cat = c)) as [->|Hne].
        -- right. exists def. apply elem_of_app. left. left.
        -- rewrite lookup_insert_ne in Hold by done. by left.
      * (* a response without results *)
        by left.
      * (* a failed request *)
        by left.
Qed.

End TMDBFacts.

Section TMDBClaims.
Import Table TMDB.

Lemma first_claims_names :
  (first_claims CATEGORIES).*1 =
    [ "news"; "technology"; "science"; "music"; "entertainment"; "kids"; "animation" ].
Proof. reflexivity. Qed.

Lemma CATEGORIES_row_of_name i j cat def def' :
  CATEGORIES !! i = Some (cat, def) → CATEGORIES !! j = Some (cat, def') →
  i = j ∧ def = def'.
Proof.
  intros Hi Hj.
  assert (i = j) as ->.
  { apply (NoDup_lookup CATEGORIES.*1 i j cat CATEGORIES_NoDup);
      rewrite list_lookup_fmap; [by rewrite Hi|by rewrite Hj]. }
  split; congruence.
Qed.

(** A later category with the genre id of an earlier one is not a first
    claim. *)
Lemma later_is_no_first_claim i j cat1 def1 cat2 def2 def :
  CATEGORIES !! i = Some (cat1, def1) → CATEGORIES !! j = Some (cat2, def2) →
  i < j → tmdb_genre_id def1 = tmdb_genre_id def2 →
  (cat2, def) ∉ first_claims CATEGORIES.
Proof.
  intros Hi Hj Hlt Hgenre (j' & Hj' & _ & Hearlier)%first_claims_after_spec.
  destruct (CATEGORIES_row_of_name _ _ _ _ _ Hj Hj') as [<- <-].
  by apply (Hearlier i (cat1, def1)).
Qed.

(** The lists of the result belong to first claims only. *)
Lemma fetchTMDB_lists net key sent cat streams :
  (fetchTMDB net key sent).1 !! cat = Some streams →
  ∃ def, (cat, def) ∈ first_claims CATEGORIES.
Proof.
  unfold fetchTMDB. case_bool_decide; [unfold Net.ret; cbn [fst]; by rewrite lookup_empty|].
  unfold Net.bind.
  destruct (Net.for_of _ _ _ sent) as [st' sent'] eqn:Hloop. unfold Net.ret. cbn [fst].
  apply (tmdb_loop _ _ _ []) in Hloop as [_ Hlists]; [|done].
  intros [Hold|?]%Hlists; [|done]. cbn [byCategory] in Hold. by rewrite lookup_empty in Hold.
Qed.

(** C4: of two categories with the same genre id, the later one in the
    table is no first claim and gets no list at all; requests are sent for
    the first claims only, one each and in the order of the table, and
    only first claims can get a list. *)
Theorem fetchTMDB_first_claim_wins net key sent i j cat1 def1 cat2 def2 :
  CATEGORIES !! i = Some (cat1, def1) → CATEGORIES !! j = Some (cat2, def2) →
  i < j → tmdb_genre_id def1 = tmdb_genre_id def2 →
  (fetchTMDB net key sent).1 !! cat2 = None
  ∧ ((cat2, def2) ∉ first_claims CATEGORIES)
  ∧ (fetchTMDB net key sent).2 =
      sent ++ (if bool_decide (key = "") then []
               else discover key <$> (first_claims CATEGORIES).*2)
  ∧ (∀ cat, is_Some ((fetchTMDB net key sent).1 !! cat) →
            cat ∈ (first_claims CATEGORIES).*1).
Proof.
  intros Hi Hj Hlt Hgenre. split_and!.
  - destruct (_ !! cat2) as [streams|] eqn:Hcat; [|done].
    apply fetchTMDB_lists in Hcat as [def Hdef].
    by apply (later_is_no_first_claim _ _ _ _ _ _ _ Hi Hj) in Hdef.
  - by apply (later_is_no_first_claim _ _ _ _ _ _ _ Hi Hj).
  - unfold fetchTMDB. case_bool_decide; [unfold Net.ret; cbn [snd]; by rewrite app_nil_r|].
    unfold Net.bind.
    destruct (Net.for_of _ _ _ sent) as [st' sent'] eqn:Hloop. unfold Net.ret. cbn [snd].
    by apply (tmdb_loop _ _ _ []) in Hloop as [-> _].
  - intros cat [streams [def Hdef]%fetchTMDB_lists].
    by apply (list_elem_of_fmap_2 fst) in Hdef.
Qed.

End TMDBClaims.

Section TMDBSample.
Import Table TMDB.

Lemma fetchTMDB_first_claim_wins_witness :
  (fetchTMDB Sample.tmdb_net "key" []).1 !! "politics" = None
  ∧ (("politics", Sample.politics_row) ∉ first_claims CATEGORIES)
  ∧ (fetchTMDB Sample.tmdb_net "key" []).2 =
      [] ++ (if bool_decide ("key" = "") then []
             else discover "key" <$> (first_claims CATEGORIES).*2)
  ∧ (∀ cat, is_Some ((fetchTMDB Sample.tmdb_net "key" []).1 !! cat) →
            cat ∈ (first_claims CATEGORIES).*1).
Proof.
  apply (fetchTMDB_first_claim_wins Sample.tmdb_net "key" [] 0 10
           "news" Sample.news_row "politics" Sample.politics_row).
  - reflexivity.
  - reflexivity.
  - lia.
  - reflexivity.
Defined.

(** In that run the first category with genre id 10763 has its list. *)
Example sample_news_has_shows :
  (fetchTMDB Sample.tmdb_net "key" []).1 !! "news" = Some [to_entry Sample.show]
  ∧ length (fetchTMDB Sample.tmdb_net "key" []).2 = 7.
Proof. split; vm_compute; reflexivity. Qed.

End TMDBSample.

(** ** Video Search Fetcher *)

Section YouTubeFacts.
Import Table YouTube.
Variables (net : Net.network (Data := data)) (key : string).

(** Every list of the result is made from the items of a response to the
    search of its category. *)
Lemma youtube_loop (rows : list (string * descriptor)) :
  ∀ (lists : listing) sent lists' sent',
    Net.for_of (step net key) lists rows sent = (lists', sent') →
    ∀ cat l, lists' !! cat = Some l →
      lists !! cat = Some l
      ∨ ∃ def history d its,
          (cat, def) ∈ rows
          ∧ net history (search key def) = Some d ∧ items d = Some its
          ∧ l = to_entry <$> filter (λ i, truthy (video_of i) = true) its.
Proof.
  induction rows as [|[c def] rows IH]; intros lists sent lists' sent'.
  - cbn. intros [= <- <-]. eauto.
  - cbn [Net.for_of]. unfold Net.bind at 1, step at 1, Net.get, Net.bind.
    destruct (net sent (search key def)) as [d|] eqn:Hnet;
      [destruct (items d) as [its|] eqn:Hits|];
      cbn [Net.ret]; intros Hloop cat l Hl;
      (destruct (IH _ _ _ _ Hloop cat l Hl) as [Hold|(def' & h & d' & its' & Hin & ?)];
         [|right; exists def', h, d', its'; split; [by right|done]]).
    + destruct (decide (c = cat)) as [->|Hne].
      * rewrite lookup_insert_eq in Hold. simplify_eq.
        right. exists def, sent, d, its. split_and!; [left|done..].
      * rewrite lookup_insert_ne in Hold by done. by left.
    + by left.
    + by left.
Qed.



End YouTubeFacts.

Section YouTubeClaims.
Import Table YouTube.



(** The bound is the API's: the fetcher does not cut the response, so a
    network that answered with nine videos would give nine entries. *)
Lemma fetchYouTube_keeps_a_ninth_entry :
  (fetchYouTube Sample.yt_net_nine "key" []).1 !! "news"
    = Some (to_entry <$> Sample.nine_videos)
  ∧ ¬ length (to_entry <$> Sample.nine_videos) ≤ 8.
Proof.
  split; [vm_compute; reflexivity|]. cbn. lia.
Qed.

End YouTubeClaims.

(** ** Local Loaders *)

Section LocalFacts.
Import Local.

(** C8, as the code has it: the loader never aborts; a file that is not
    there gives an empty mapping and no warning; a file that is read and
    parsed gives the parsed value, whatever kind of JSON value it is, and
    no warning; a file that cannot be read or parsed gives an empty
    mapping and one warning. *)
Theorem loadLocal_never_aborts (h : host) (filename : string) :
  let p := path_join h (DATA_DIR h) filename in
  (∃ v, (loadLocal h filename).1 = Normal v)
  ∧ (existsSync h p = false → loadLocal h filename = (Normal (JObj ∅), []))
  ∧ (∀ text v,
       existsSync h p = true → readFileSync h p = Normal text →
       JSON_parse h text = Normal v →
       loadLocal h filename = (Normal v, []))
  ∧ (∀ text e,
       existsSync h p = true → readFileSync h p = Normal text →
       JSON_parse h text = Throw e →
       loadLocal h filename = (Normal (JObj ∅), [warning filename e]))
  ∧ (∀ e,
       existsSync h p = true → readFileSync h p = Throw e →
       loadLocal h filename = (Normal (JObj ∅), [warning filename e])).
Proof.
  intros p. unfold loadLocal. fold p. split_and!.
  - destruct (existsSync h p); cbn [negb]; [|by eexists].
    destruct (readFileSync h p) as [text|e]; cbn; [|by eexists].
    destruct (JSON_parse h text); by eexists.
  - by intros ->.
  - intros text v -> -> Hparse. cbn. by rewrite Hparse.
  - intros text e -> -> Hparse. cbn. by rewrite Hparse.
  - by intros e -> ->.
Qed.

Lemma loadLocal_never_aborts_witness :
  (∃ v, (loadLocal Sample.host "user_channels.json").1 = Normal v)
  ∧ loadLocal Sample.host "missing.json" = (Normal (JObj ∅), [])
  ∧ loadLocal Sample.host "url_history.json" = (Normal (JArr []), [])
  ∧ loadLocal Sample.host "user_channels.json"
      = (Normal (JObj ∅),
         [warning "user_channels.json" (SyntaxError "Unexpected token in JSON")]).
Proof.
  split_and!.
  - apply (loadLocal_never_aborts Sample.host "user_channels.json").
  - apply (loadLocal_never_aborts Sample.host "missing.json"). reflexivity.
  - apply (loadLocal_never_aborts Sample.host "url_history.json") with (text := "[]");
      vm_compute; reflexivity.
  - apply (loadLocal_never_aborts Sample.host "user_channels.json") with (text := "{");
      vm_compute; reflexivity.
Defined.

(** C8, as the specification words it, fails: what the loader returns
    for a file that holds [null] is [null], which is not a mapping. *)
Lemma loadLocal_returns_null :
  loadLocal Sample.host "custom_channels.json" = (Normal JNull, [])
  ∧ ¬ is_mapping JNull.
Proof.
  split; [vm_compute; reflexivity|]. intros [members Heq]. discriminate Heq.
Qed.

End LocalFacts.

(** * Further properties *)

(** ** History Builder *)

Section HistoryMore.
Import History.

(** The elements of a set built from a list are those of the list. *)
Lemma foldl_add_elements {A : Type} `{EqDecision A} (l : list A) : ∀ (s : list A) x,
  x ∈ foldl JSSet.add s l ↔ x ∈ s ∨ x ∈ l.
Proof.
  induction l as [|y l IH]; intros s x.
  - cbn. rewrite elem_of_nil. tauto.
  - cbn [foldl]. rewrite IH, elem_of_cons. unfold JSSet.add.
    destruct (JSSet.has s y) eqn:Hy.
    + apply has_spec in Hy. split; [tauto|]. intros [?|[->|?]]; tauto.
    + rewrite elem_of_app, list_elem_of_singleton. tauto.
Qed.

(** X1: the history never holds a URL twice, and it holds nothing but
    defaults and URLs of the list it was given. *)
Theorem buildUrlHistory_distinct_and_known (existing : option (list value)) :
  NoDup (buildUrlHistory existing)
  ∧ Forall (λ x, x ∈ defaults ∨ x ∈ default [] existing) (buildUrlHistory existing).
Proof.
  split.
  - destruct (buildUrlHistory_shape existing) as (r & -> & Hnd & _). done.
  - apply Forall_forall. intros x Hx. unfold buildUrlHistory, JSSet.spread in Hx.
    apply (subseteq_take 50) in Hx. unfold JSSet.of_iterable in Hx.
    apply foldl_add_elements in Hx as [Hx|Hx]; [by apply elem_of_nil in Hx|].
    apply elem_of_app in Hx. by destruct existing.
Qed.

(** X2: persisted URLs that are new, distinct and at most 40 are all kept,
    in their order, after the ten defaults. *)
Theorem buildUrlHistory_appends_new (l : list value) :
  NoDup (defaults ++ l) → length l ≤ 40 →
  buildUrlHistory (Some l) = defaults ++ l.
Proof.
  intros Hnd Hlen. unfold buildUrlHistory, JSSet.spread, JSSet.of_iterable, JSSet.empty.
  rewrite (foldl_add_fresh (defaults ++ l) []) by done. cbn [app].
  apply take_ge. rewrite length_app, defaults_length. lia.
Qed.

Lemma buildUrlHistory_appends_new_witness :
  buildUrlHistory (Some More.persisted) = defaults ++ More.persisted.
Proof.
  apply (buildUrlHistory_appends_new More.persisted).
  - apply (bool_decide_unpack _). vm_compute. exact I.
  - cbn. lia.
Defined.

(** X3: a persisted list that holds only default URLs changes nothing: the
    history is the list of defaults. *)
Theorem buildUrlHistory_absorbs_defaults (l : list value) :
  Forall (λ x, x ∈ defaults) l → buildUrlHistory (Some l) = defaults.
Proof.
  intros Hall. unfold buildUrlHistory, JSSet.spread, JSSet.of_iterable.
  rewrite foldl_app. fold (JSSet.of_iterable defaults). rewrite defaults_as_set.
  rewrite foldl_add_known by (by apply Forall_forall).
  apply take_ge. rewrite defaults_length. lia.
Qed.

Lemma buildUrlHistory_absorbs_defaults_witness :
  buildUrlHistory (Some [VStr "https://en.wikipedia.org/wiki/Internet"]) = defaults.
Proof.
  apply (buildUrlHistory_absorbs_defaults [VStr "https://en.wikipedia.org/wiki/Internet"]).
  apply Forall_cons. split; [|apply Forall_nil_2].
  apply (list_elem_of_lookup_2 _ 1). reflexivity.
Defined.

(** X4: below the cap nothing is lost: when the history has fewer than 50
    elements, every URL of the list it was given is in it. *)
Theorem buildUrlHistory_loses_nothing_below_cap (l : list value) :
  length (buildUrlHistory (Some l)) < 50 →
  Forall (λ x, x ∈ buildUrlHistory (Some l)) l.
Proof.
  unfold buildUrlHistory, JSSet.spread. intros Hlen.
  rewrite length_take in Hlen. rewrite take_ge by lia.
  apply Forall_forall. intros x Hx. unfold JSSet.of_iterable.
  apply foldl_add_elements. right. apply elem_of_app. by right.
Qed.

Lemma buildUrlHistory_loses_nothing_below_cap_witness :
  Forall (λ x, x ∈ buildUrlHistory (Some More.repeated)) More.repeated.
Proof.
  apply (buildUrlHistory_loses_nothing_below_cap More.repeated).
  vm_compute. lia.
Defined.

End HistoryMore.

(** ** Merge Engine *)

Section MergeMore.
Import Table Merge.

(** X5: whatever is fetched and whatever the local lists hold, the Output
    Document has the sixteen category keys and no other. *)
Theorem mergeAll_always_sixteen_keys now iptv yt tmdb custom user :
  dom (categories (mergeAll now iptv yt tmdb custom user)) = list_to_set
    [ "news"; "technology"; "science"; "history"; "sports"; "music";
      "entertainment"; "nature"; "cooking"; "travel"; "politics"; "business";
      "health"; "kids"; "animation"; "general" ]
  ∧ size (dom (categories (mergeAll now iptv yt tmdb custom user))) = 16.
Proof.
  assert (dom (categories (mergeAll now iptv yt tmdb custom user))
          = list_to_set CATEGORIES.*1) as Hdom.
  { unfold mergeAll. cbn [categories]. rewrite loop_dom, dom_empty_L.
    apply (left_id_L ∅ (∪)). }
  split.
  - by rewrite Hdom, CATEGORIES_names.
  - rewrite Hdom, size_list_to_set by apply CATEGORIES_NoDup. reflexivity.
Qed.

(** Where the candidates of a category come from. *)
Lemma candidates_elem cat def iptv yt tmdb custom user (e : entry) :
  e ∈ candidates cat def iptv yt tmdb custom user →
  (∃ group s, group ∈ iptv_groups def ∧ s ∈ take 15 (Entry.at_key iptv group)
              ∧ e = with_category cat s)
  ∨ (∃ s, s ∈ Entry.at_key yt cat ∧ e = with_category cat s)
  ∨ (∃ s, s ∈ Entry.at_key tmdb cat ∧ e = with_category cat s)
  ∨ (∃ s, s ∈ Entry.at_key custom cat ∧ e = with_source cat "custom" s)
  ∨ (∃ s, s ∈ Entry.at_key user cat ∧ e = with_source cat "user" s).
Proof.
  rewrite candidates_split, !elem_of_app.
  intros [H|[H|[H|[H|H]]]].
  - left. by apply from_groups_elem.
  - right; left. apply list_elem_of_fmap in H as (s & -> & ?). eauto.
  - do 2 right; left. apply list_elem_of_fmap in H as (s & -> & ?). eauto.
  - do 3 right; left. apply list_elem_of_fmap in H as (s & -> & ?). eauto.
  - do 4 right. apply list_elem_of_fmap in H as (s & -> & ?). eauto.
Qed.

(** X6: every entry of the Output Document carries, as its [category], the
    key of the list it is in, whatever category its source record named. *)
Theorem mergeAll_entries_carry_their_category now iptv yt tmdb custom user cat l :
  categories (mergeAll now iptv yt tmdb custom user) !! cat = Some l →
  Forall (λ e, e !! "category" = Some (VStr cat)) l.
Proof.
  intros (def & _ & ->)%mergeAll_inv. apply Forall_forall.
  intros e He%dedup_from_input%candidates_elem.
  destruct He as [(g & s & _ & _ & ->)|[(s & _ & ->)|[(s & _ & ->)|[(s & _ & ->)|(s & _ & ->)]]]];
    unfold with_source, with_category;
    rewrite ?(lookup_insert_ne _ "source" "category") by done;
    apply lookup_insert_eq.
Qed.

Lemma mergeAll_entries_carry_their_category_witness :
  Forall (λ e, e !! "category" = Some (VStr "news")) Sample.news.
Proof.
  apply (mergeAll_entries_carry_their_category
           Sample.now Sample.iptvByGroup ∅ ∅ Sample.custom ∅ "news").
  vm_compute. reflexivity.
Defined.

(** X7: every entry of a category is a record of one of the five sources:
    one of the first 15 streams of a playlist group of the category, a video
    or a show fetched for it, with their own [source], or a curated or a
    user-submitted record of it, whose [source] is set to [custom] or to
    [user] whatever the record said. *)
Theorem mergeAll_entries_come_from_sources now iptv yt tmdb custom user i cat def l :
  CATEGORIES !! i = Some (cat, def) →
  categories (mergeAll now iptv yt tmdb custom user) !! cat = Some l →
  Forall (λ e,
    (∃ group s, group ∈ iptv_groups def ∧ s ∈ take 15 (Entry.at_key iptv group)
                ∧ e = with_category cat s ∧ e !! "source" = s !! "source")
    ∨ (∃ s, s ∈ Entry.at_key yt cat ∧ e = with_category cat s
            ∧ e !! "source" = s !! "source")
    ∨ (∃ s, s ∈ Entry.at_key tmdb cat ∧ e = with_category cat s
            ∧ e !! "source" = s !! "source")
    ∨ (∃ s, s ∈ Entry.at_key custom cat ∧ e = with_source cat "custom" s
            ∧ e !! "source" = Some (VStr "custom"))
    ∨ (∃ s, s ∈ Entry.at_key user cat ∧ e = with_source cat "user" s
            ∧ e !! "source" = Some (VStr "user"))) l.
Proof.
  intros Hi Hl. rewrite (mergeAll_lookup _ _ _ _ _ _ _ _ _ Hi) in Hl.
  injection Hl as <-. apply Forall_forall.
  intros e He%dedup_from_input%candidates_elem.
  destruct He as [(g & s & ? & ? & ->)|[(s & ? & ->)|[(s & ? & ->)|[(s & ? & ->)|(s & ? & ->)]]]].
  - left. exists g, s. split_and!; [done..|]. by apply lookup_insert_ne.
  - right; left. exists s. split_and!; [done..|]. by apply lookup_insert_ne.
  - do 2 right; left. exists s. split_and!; [done..|]. by apply lookup_insert_ne.
  - do 3 right; left. exists s. split_and!; [done..|]. apply lookup_insert_eq.
  - do 4 right. exists s. split_and!; [done..|]. apply lookup_insert_eq.
Qed.

(** X8: the list of a category keeps the order of its candidates: it is
    the candidate list with some entries left out. *)
Theorem mergeAll_keeps_candidate_order now iptv yt tmdb custom user i cat def l :
  CATEGORIES !! i = Some (cat, def) →
  categories (mergeAll now iptv yt tmdb custom user) !! cat = Some l →
  l `sublist_of` candidates cat def iptv yt tmdb custom user.
Proof.
  intros Hi Hl. rewrite (mergeAll_lookup _ _ _ _ _ _ _ _ _ Hi) in Hl.
  injection Hl as <-. apply dedup_sublist.
Qed.

(** X9: no URL is lost: every candidate of a category whose [url] is there
    and not empty has that URL in the category's list. *)
Theorem mergeAll_loses_no_url now iptv yt tmdb custom user i cat def l :
  CATEGORIES !! i = Some (cat, def) →
  categories (mergeAll now iptv yt tmdb custom user) !! cat = Some l →
  Forall (λ e, truthy (Entry.url e) = true → Entry.url e ∈ Entry.url <$> l)
         (candidates cat def iptv yt tmdb custom user).
Proof.
  intros Hi Hl. rewrite (mergeAll_lookup _ _ _ _ _ _ _ _ _ Hi) in Hl.
  injection Hl as <-. apply Forall_forall. intros e He Ht.
  by apply (dedup_covers _ JSSet.empty e He).
Qed.

End MergeMore.

Section MergeMoreSample.
Import Table Merge.

Lemma mergeAll_entries_come_from_sources_witness :
  Forall (λ e,
    (∃ group s, group ∈ iptv_groups Sample.news_row
                ∧ s ∈ take 15 (Entry.at_key Sample.iptvByGroup group)
                ∧ e = with_category "news" s ∧ e !! "source" = s !! "source")
    ∨ (∃ s, s ∈ Entry.at_key (∅ : listing) "news" ∧ e = with_category "news" s
            ∧ e !! "source" = s !! "source")
    ∨ (∃ s, s ∈ Entry.at_key (∅ : listing) "news" ∧ e = with_category "news" s
            ∧ e !! "source" = s !! "source")
    ∨ (∃ s, s ∈ Entry.at_key Sample.custom "news" ∧ e = with_source "news" "custom" s
            ∧ e !! "source" = Some (VStr "custom"))
    ∨ (∃ s, s ∈ Entry.at_key (∅ : listing) "news" ∧ e = with_source "news" "user" s
            ∧ e !! "source" = Some (VStr "user"))) Sample.news.
Proof.
  apply (mergeAll_entries_come_from_sources
           Sample.now Sample.iptvByGroup ∅ ∅ Sample.custom ∅ 0 "news" Sample.news_row).
  - reflexivity.
  - vm_compute. reflexivity.
Defined.

Lemma mergeAll_keeps_candidate_order_witness :
  Sample.news `sublist_of`
    candidates "news" Sample.news_row Sample.iptvByGroup ∅ ∅ Sample.custom ∅.
Proof.
  apply (mergeAll_keeps_candidate_order
           Sample.now Sample.iptvByGroup ∅ ∅ Sample.custom ∅ 0 "news" Sample.news_row).
  - reflexivity.
  - vm_compute. reflexivity.
Defined.

Lemma mergeAll_loses_no_url_witness :
  Forall (λ e, truthy (Entry.url e) = true → Entry.url e ∈ Entry.url <$> Sample.news)
         (candidates "news" Sample.news_row Sample.iptvByGroup ∅ ∅ Sample.custom ∅).
Proof.
  apply (mergeAll_loses_no_url
           Sample.now Sample.iptvByGroup ∅ ∅ Sample.custom ∅ 0 "news" Sample.news_row).
  - reflexivity.
  - vm_compute. reflexivity.
Defined.

End MergeMoreSample.

Section MergeBounds.
Import Table Merge.

(** The playlist candidates, group after group. *)
Lemma from_groups_bind cat def (iptv : listing) :
  from_groups cat def iptv =
    iptv_groups def ≫= λ group, with_category cat <$> take 15 (Entry.at_key iptv group).
Proof.
  unfold from_groups. rewrite <- (app_nil_l (_ ≫= _)). generalize (@nil entry).
  induction (iptv_groups def) as [|g groups IH]; intros acc.
  - by rewrite app_nil_r.
  - cbn [foldl]. rewrite IH. cbn. by rewrite (assoc_L (++)).
Qed.

Lemma from_groups_length cat def (iptv : listing) :
  length (from_groups cat def iptv) ≤ 15 * length (iptv_groups def).
Proof.
  rewrite from_groups_bind. induction (iptv_groups def) as [|g groups IH]; [done|].
  cbn [mbind list_bind]. rewrite length_app, length_fmap, length_take. cbn [length].
  replace (15 * S (length groups)) with (15 + 15 * length groups) by lia.
  apply Nat.add_le_mono; [apply Nat.le_min_l|exact IH].
Qed.

(** X10: the cap of 15 is on each group, not on the category: the playlist
    candidates of a category are, group after group, the first 15 streams
    of each of its groups (all of them when a group has fewer), so each
    group gives the smaller of 15 and its size, and the list of a category
    is no longer than those shares and the lists of the four other sources
    together. *)
Theorem mergeAll_list_is_bounded now iptv yt tmdb custom user i cat def l :
  CATEGORIES !! i = Some (cat, def) →
  categories (mergeAll now iptv yt tmdb custom user) !! cat = Some l →
  from_groups cat def iptv =
    (iptv_groups def ≫= λ group, with_category cat <$> take 15 (Entry.at_key iptv group))
  ∧ length (from_groups cat def iptv)
    = sum_list ((λ group, 15 `min` length (Entry.at_key iptv group)) <$> iptv_groups def)
  ∧ length (from_groups cat def iptv) ≤ 15 * length (iptv_groups def)
  ∧ length l ≤ sum_list ((λ group, 15 `min` length (Entry.at_key iptv group))
                           <$> iptv_groups def)
               + length (Entry.at_key yt cat) + length (Entry.at_key tmdb cat)
               + length (Entry.at_key custom cat) + length (Entry.at_key user cat).
Proof.
  intros Hi Hl. rewrite (mergeAll_lookup _ _ _ _ _ _ _ _ _ Hi) in Hl.
  injection Hl as <-.
  assert (length (from_groups cat def iptv)
          = sum_list ((λ group, 15 `min` length (Entry.at_key iptv group))
                        <$> iptv_groups def)) as Hshare.
  { rewrite from_groups_bind. induction (iptv_groups def) as [|g groups IH]; [done|].
    cbn [mbind list_bind fmap list_fmap sum_list].
    rewrite length_app, length_fmap, length_take. f_equal. exact IH. }
  split_and!.
  - apply from_groups_bind.
  - exact Hshare.
  - apply from_groups_length.
  - rewrite <- Hshare. etrans; [apply sublist_length, dedup_sublist|].
    rewrite candidates_split, !length_app, !length_fmap. lia.
Qed.

Lemma mergeAll_list_is_bounded_witness :
  from_groups "news" Sample.news_row Crowd.iptvByGroup =
    (iptv_groups Sample.news_row
       ≫= λ group, with_category "news" <$> take 15 (Entry.at_key Crowd.iptvByGroup group))
  ∧ length (from_groups "news" Sample.news_row Crowd.iptvByGroup) = 17
  ∧ length (Entry.at_key Crowd.iptvByGroup "News") = 20.
Proof.
  destruct (mergeAll_list_is_bounded Sample.now Crowd.iptvByGroup ∅ ∅ ∅ ∅ 0 "news"
              Sample.news_row
              (dedup JSSet.empty (candidates "news" Sample.news_row Crowd.iptvByGroup ∅ ∅ ∅ ∅)))
    as (Hshape & Hlen & _).
  - reflexivity.
  - apply (mergeAll_lookup _ _ _ _ _ _ 0). reflexivity.
  - split_and!; [exact Hshape|rewrite Hlen; reflexivity|reflexivity].
Defined.

(** X11: nothing is left out without cause: when the candidates of a
    category all have a [url] that is there and not empty, and no two have
    the same, the list of the category is the whole candidate list. *)
Theorem mergeAll_keeps_clean_candidates now iptv yt tmdb custom user i cat def :
  CATEGORIES !! i = Some (cat, def) →
  Forall (λ e, truthy (Entry.url e) = true) (candidates cat def iptv yt tmdb custom user) →
  NoDup (Entry.url <$> candidates cat def iptv yt tmdb custom user) →
  categories (mergeAll now iptv yt tmdb custom user) !! cat
    = Some (candidates cat def iptv yt tmdb custom user).
Proof.
  intros Hi Ht Hnd. rewrite (mergeAll_lookup _ _ _ _ _ _ _ _ _ Hi).
  f_equal. by apply dedup_clean.
Qed.

Lemma mergeAll_keeps_clean_candidates_witness :
  categories (mergeAll Sample.now ∅ ∅ ∅ More.curated ∅) !! "music"
    = Some (candidates "music" More.music_row ∅ ∅ ∅ More.curated ∅).
Proof.
  apply (mergeAll_keeps_clean_candidates Sample.now ∅ ∅ ∅ More.curated ∅ 5 "music" More.music_row).
  - reflexivity.
  - apply (bool_decide_unpack _). vm_compute. exact I.
  - apply (bool_decide_unpack _). vm_compute. exact I.
Defined.

(** X12: deduplicating twice is deduplicating once. *)
Theorem dedup_idempotent (l : list entry) :
  dedup JSSet.empty (dedup JSSet.empty l) = dedup JSSet.empty l.
Proof.
  apply dedup_clean.
  - apply Forall_forall. intros e He. by eapply dedup_truthy.
  - apply dedup_NoDup.
Qed.

End MergeBounds.

Section MergeIgnores.
Import Table Merge.

Lemma at_key_insert_ne (m : listing) (k k' : string) (streams : list entry) :
  k ≠ k' → Entry.at_key (<[k := streams]> m) k' = Entry.at_key m k'.
Proof. intros Hne. unfold Entry.at_key. by rewrite lookup_insert_ne. Qed.

(** Two loops whose bodies agree on every row of the table end alike. *)
Lemma loop_agree (body1 body2 : listing → string * descriptor → listing)
    (rows : list (string * descriptor)) : ∀ out,
  Forall (λ row, ∀ out, body1 out row = body2 out row) rows →
  foldl body1 out rows = foldl body2 out rows.
Proof.
  induction rows as [|row rows IH]; intros out Hall; [done|].
  apply Forall_cons in Hall as [Hrow Hall]. cbn [foldl]. rewrite Hrow. by apply IH.
Qed.

Lemma from_groups_unlisted cat def (iptv : listing) g streams :
  g ∉ iptv_groups def →
  from_groups cat def (<[g := streams]> iptv) = from_groups cat def iptv.
Proof.
  intros Hg. rewrite !from_groups_bind.
  induction (iptv_groups def) as [|g' groups IH]; [done|].
  cbn [mbind list_bind]. rewrite at_key_insert_ne.
  - f_equal. apply IH. intros Hin. apply Hg. by right.
  - intros ->. apply Hg. left.
Qed.

(** X13: streams filed under a playlist group that no category lists never
    reach the Output Document: with or without them it is the same. *)
Theorem mergeAll_ignores_unlisted_groups now iptv yt tmdb custom user g streams :
  Forall (λ row, g ∉ iptv_groups (row.2)) CATEGORIES →
  mergeAll now (<[g := streams]> iptv) yt tmdb custom user
    = mergeAll now iptv yt tmdb custom user.
Proof.
  intros Hall. unfold mergeAll. f_equal. apply loop_agree.
  eapply Forall_impl; [exact Hall|]. intros [cat def] Hg out.
  unfold merge_category, candidates. by rewrite from_groups_unlisted.
Qed.

Lemma mergeAll_ignores_unlisted_groups_witness :
  mergeAll Sample.now (<["Movies" := [Sample.channel "Film" "http://film.example/live.m3u8"]]>
                         Sample.iptvByGroup) ∅ ∅ Sample.custom ∅
    = mergeAll Sample.now Sample.iptvByGroup ∅ ∅ Sample.custom ∅.
Proof.
  apply (mergeAll_ignores_unlisted_groups Sample.now Sample.iptvByGroup ∅ ∅ Sample.custom ∅
           "Movies" [Sample.channel "Film" "http://film.example/live.m3u8"]).
  apply (bool_decide_unpack _). vm_compute. exact I.
Defined.

(** X14: what the fetched and the local mappings hold under a name that is
    no category is ignored: with or without it the Output Document is the
    same. *)
Theorem mergeAll_ignores_unknown_categories now iptv yt tmdb custom user k a b c d :
  k ∉ CATEGORIES.*1 →
  mergeAll now iptv (<[k := a]> yt) (<[k := b]> tmdb) (<[k := c]> custom) (<[k := d]> user)
    = mergeAll now iptv yt tmdb custom user.
Proof.
  intros Hk. unfold mergeAll. f_equal. apply loop_agree.
  apply Forall_forall. intros [cat def] Hin out.
  assert (k ≠ cat) as Hne.
  { intros ->. apply Hk. by apply (list_elem_of_fmap_2 fst) in Hin. }
  unfold merge_category, candidates. by rewrite !at_key_insert_ne.
Qed.

Lemma mergeAll_ignores_unknown_categories_witness :
  mergeAll Sample.now Sample.iptvByGroup
      (<["movies" := []]> ∅) (<["movies" := []]> ∅)
      (<["movies" := [Sample.channel "Film" "http://film.example/live.m3u8"]]> Sample.custom)
      (<["movies" := []]> ∅)
    = mergeAll Sample.now Sample.iptvByGroup ∅ ∅ Sample.custom ∅.
Proof.
  apply (mergeAll_ignores_unknown_categories Sample.now Sample.iptvByGroup ∅ ∅ Sample.custom ∅
           "movies" [] [] [Sample.channel "Film" "http://film.example/live.m3u8"] []).
  apply (bool_decide_unpack _). vm_compute. exact I.
Defined.

End MergeIgnores.

(** ** Playlist Fetcher *)

Section PlaylistMore.
Import Playlist.

(** What a step of a loop keeps, the loop keeps. *)
Lemma for_of_invariant {A S : Type} (body : S → A → completion S) (P : S → Prop)
    (l : list A) : ∀ s s',
  (∀ s x s', P s → body s x = Normal s' → P s') →
  P s → for_of body s l = Normal s' → P s'.
Proof.
  induction l as [|x l IH]; intros s s' Hstep Hs.
  - cbn. by intros [= <-].
  - cbn [for_of]. destruct (body s x) as [s1|] eqn:Hx; [|done].
    cbn [Completion.bind]. apply IH; [done|]. by eapply Hstep.
Qed.

Lemma for_of_app {A S : Type} (body : S → A → completion S) (l1 l2 : list A) : ∀ s,
  for_of body s (l1 ++ l2) = Completion.bind (for_of body s l1) (λ s', for_of body s' l2).
Proof.
  induction l1 as [|x l1 IH]; intros s; [done|].
  cbn [app for_of]. destruct (body s x); [apply IH|done].
Qed.

(** The mapping a run returns is the one its loop ends with. *)
Lemma fetchIptvOrg_Normal (raw : option string) (groups : listing) :
  fetchIptvOrg raw = Normal groups →
  groups = ∅
  ∨ ∃ text st, raw = Some text ∧ parse (Str.split Str.LF text) = Normal st
               ∧ groups = byGroup st.
Proof.
  unfold fetchIptvOrg. destruct raw as [text|]; [|intros [= <-]; by left].
  case_bool_decide; [intros [= <-]; by left|].
  destruct (parse _) as [st|] eqn:Hparse; [|done].
  cbn. intros [= <-]. right. eauto.
Qed.

(** A group has a list only once an entry is filed under it, and its list
    stops growing at 60. *)
Lemma step_sizes (st st' : state) (line : string) :
  (∀ g streams, byGroup st !! g = Some streams → 0 < length streams ≤ 60) →
  step st line = Normal st' →
  ∀ g streams, byGroup st' !! g = Some streams → 0 < length streams ≤ 60.
Proof.
  intros Hst. unfold step.
  destruct (Str.startsWith "#EXTINF" _); [by intros [= <-]|].
  destruct (Str.startsWith "http" _); [|by intros [= <-]].
  destruct (current st) as [c|]; [|by intros [= <-]].
  unfold file_under.
  destruct (byGroup st !! group c) as [old|] eqn:Hold.
  - destruct (length old <? 60) eqn:Hroom; cbn; intros [= <-]; [|done].
    cbn [byGroup]. intros g streams Hg.
    destruct (decide (group c = g)) as [<-|Hne].
    + rewrite lookup_insert_eq in Hg. injection Hg as <-.
      apply Nat.ltb_lt in Hroom. rewrite length_app. cbn. lia.
    + rewrite lookup_insert_ne in Hg by done. by eapply Hst.
  - case_bool_decide; [cbn; by intros [= <-]|].
    case_bool_decide; [done|]. cbn. intros [= <-]. cbn [byGroup].
    intros g streams Hg. destruct (decide (group c = g)) as [<-|Hne].
    + rewrite lookup_insert_eq in Hg. injection Hg as <-. cbn. lia.
    + rewrite lookup_insert_ne in Hg by done. by eapply Hst.
Qed.

(** X15: every group of the mapping returned has at least one entry and at
    most 60. *)
Theorem fetchIptvOrg_groups_hold_1_to_60 (raw : option string) (groups : listing)
    (g : string) (streams : list entry) :
  fetchIptvOrg raw = Normal groups → groups !! g = Some streams →
  0 < length streams ≤ 60.
Proof.
  intros [->|(text & st & _ & Hparse & ->)]%fetchIptvOrg_Normal Hg;
    [by rewrite lookup_empty in Hg|].
  refine (for_of_invariant step
            (λ st, ∀ g streams, byGroup st !! g = Some streams → 0 < length streams ≤ 60)
            _ _ _ (λ s x s', step_sizes s s' x) _ Hparse g streams Hg).
  intros g' streams' Hg'. cbn [byGroup] in Hg'. by rewrite lookup_empty in Hg'.
Qed.

Lemma fetchIptvOrg_groups_hold_1_to_60_witness :
  0 < length [Sample.channel_a] ≤ 60.
Proof.
  apply (fetchIptvOrg_groups_hold_1_to_60 (Some Sample.playlist)
           {[ "General" := [Sample.channel_a] ]} "General").
  - vm_compute. reflexivity.
  - apply lookup_singleton_eq.
Defined.

Lemma startsWith_http_nonempty (u : string) : Str.startsWith "http" u = true → u ≠ "".
Proof. by destruct u. Qed.

(** X16: every entry of the mapping returned is tagged [live] and
    [iptv-org], has string fields [name], [logo] and [id], and has for
    [url] the trimmed text of a line, which starts with [http]: its [url]
    is never missing or empty. *)
Theorem fetchIptvOrg_entries_are_live_streams (raw : option string) (g : string) (e : entry) :
  emitted raw g e →
  e !! "type" = Some (VStr "live")
  ∧ e !! "source" = Some (VStr "iptv-org")
  ∧ (∃ name logo id, e !! "name" = Some (VStr name) ∧ e !! "logo" = Some (VStr logo)
                     ∧ e !! "id" = Some (VStr id))
  ∧ (∃ line, e !! "url" = Some (VStr (Str.trim line))
             ∧ Str.startsWith "http" (Str.trim line) = true)
  ∧ truthy (Entry.url e) = true.
Proof.
  intros (groups & streams & Hfetch & Hg & He).
  apply fetchIptvOrg_Normal in Hfetch as [->|(text & st & _ & Hparse & ->)];
    [by rewrite lookup_empty in Hg|].
  apply (loop_reading _ [] _ _ reading_start) in Hparse as [Hentries _].
  destruct (Hentries g streams e Hg He)
    as [(i & j & meta & url & _ & _ & _ & _ & Hurl & -> & _) _].
  unfold is_url in Hurl. apply andb_true_iff in Hurl as [_ Hhttp].
  unfold to_entry, announce. split_and!.
  - rewrite lookup_insert_ne by done. apply lookup_insert_eq.
  - rewrite !lookup_insert_ne by done. apply lookup_insert_eq.
  - eexists _, _, _. split_and!;
      (rewrite !lookup_insert_ne by done; apply lookup_insert_eq).
  - exists url. split; [apply lookup_insert_eq|done].
  - unfold Entry.url. rewrite lookup_insert_eq. cbn.
    apply negb_true_iff, bool_decide_eq_false. by apply startsWith_http_nonempty.
Qed.

Lemma fetchIptvOrg_entries_are_live_streams_witness :
  Sample.channel_a !! "type" = Some (VStr "live")
  ∧ Sample.channel_a !! "source" = Some (VStr "iptv-org")
  ∧ (∃ name logo id, Sample.channel_a !! "name" = Some (VStr name)
                     ∧ Sample.channel_a !! "logo" = Some (VStr logo)
                     ∧ Sample.channel_a !! "id" = Some (VStr id))
  ∧ (∃ line, Sample.channel_a !! "url" = Some (VStr (Str.trim line))
             ∧ Str.startsWith "http" (Str.trim line) = true)
  ∧ truthy (Entry.url Sample.channel_a) = true.
Proof.
  apply (fetchIptvOrg_entries_are_live_streams (Some Sample.playlist) "General").
  exists {[ "General" := [Sample.channel_a] ]}, [Sample.channel_a]. split_and!.
  - vm_compute. reflexivity.
  - apply lookup_singleton_eq.
  - left.
Defined.

(** X17: a text without a metadata line gives an empty mapping: a URL line
    that no metadata line announced is ignored. *)
Theorem fetchIptvOrg_needs_metadata_lines (text : string) :
  Forall (λ line, is_meta line = false) (Str.split Str.LF text) →
  fetchIptvOrg (Some text) = Normal ∅.
Proof.
  intros Hall. unfold fetchIptvOrg. case_bool_decide; [done|].
  assert (∀ lines, Forall (λ line, is_meta line = false) lines →
            for_of step {| byGroup := ∅; current := None |} lines
            = Normal {| byGroup := ∅; current := None |}) as Hloop.
  { clear. induction 1 as [|line lines Hline _ IH]; [done|].
    cbn [for_of]. unfold step at 1. unfold is_meta in Hline. rewrite Hline.
    cbn [current]. by destruct (Str.startsWith "http" _). }
  unfold parse. by rewrite Hloop.
Qed.

Lemma fetchIptvOrg_needs_metadata_lines_witness :
  fetchIptvOrg (Some More.bare_urls) = Normal ∅.
Proof.
  apply (fetchIptvOrg_needs_metadata_lines More.bare_urls).
  apply (bool_decide_unpack _). vm_compute. exact I.
Defined.

End PlaylistMore.

Section PlaylistEdges.
Import Playlist.

Lemma step_meta (st : state) (line : string) :
  is_meta line = true →
  step st line = Normal {| byGroup := byGroup st; current := Some (announce (Str.trim line)) |}.
Proof. unfold is_meta, step. by intros ->. Qed.

Lemma step_url (st : state) (line : string) (c : channel) :
  is_url line = true → current st = Some c →
  step st line =
    Completion.bind (file_under (byGroup st) (group c) (to_entry c (Str.trim line)))
      (λ groups, Normal {| byGroup := groups; current := None |}).
Proof.
  unfold is_url, is_meta, step. intros [Hmeta Hhttp]%andb_true_iff ->.
  apply negb_true_iff in Hmeta. by rewrite Hmeta, Hhttp.
Qed.

(** No list is ever filed under a name the mapping inherits. *)
Lemma step_no_inherited_key (st st' : state) (line : string) :
  (∀ g, g ∈ inherited_methods → byGroup st !! g = None) →
  step st line = Normal st' →
  ∀ g, g ∈ inherited_methods → byGroup st' !! g = None.
Proof.
  intros Hst. unfold step.
  destruct (Str.startsWith "#EXTINF" _); [by intros [= <-]|].
  destruct (Str.startsWith "http" _); [|by intros [= <-]].
  destruct (current st) as [c|]; [|by intros [= <-]].
  unfold file_under.
  destruct (byGroup st !! group c) as [old|] eqn:Hold.
  - destruct (length old <? 60); cbn; intros [= <-]; [|done].
    cbn [byGroup]. intros g Hg. rewrite lookup_insert_ne; [by apply Hst|].
    intros Heq. rewrite Heq, (Hst g Hg) in Hold. done.
  - case_bool_decide; [cbn; by intros [= <-]|].
    case_bool_decide as Hin; [done|]. cbn. intros [= <-]. cbn [byGroup].
    intros g Hg. rewrite lookup_insert_ne; [by apply Hst|].
    intros Heq. apply Hin. by rewrite Heq.
Qed.

Lemma proto_is_no_method : "__proto__" ∉ inherited_methods.
Proof. apply (bool_decide_unpack _). vm_compute. exact I. Qed.

(** X18: the fetcher returns a mapping, and throws nothing, for every text
    in which no metadata line names as its group a method that objects
    inherit ([constructor], [toString], ...). *)
Theorem fetchIptvOrg_returns_for_plain_groups (text : string) :
  Forall (λ line, is_meta line = true →
                  group (announce (Str.trim line)) ∉ inherited_methods)
         (Str.split Str.LF text) →
  ∃ groups, fetchIptvOrg (Some text) = Normal groups.
Proof.
  intros Hall. unfold fetchIptvOrg. case_bool_decide; [by eexists|].
  assert (∀ lines st,
            Forall (λ line, is_meta line = true →
                            group (announce (Str.trim line)) ∉ inherited_methods) lines →
            (∀ c, current st = Some c → group c ∉ inherited_methods) →
            ∃ st', for_of step st lines = Normal st') as Hloop.
  { clear. intros lines. induction lines as [|line lines IH]; intros st Hall Hcur.
    - by eexists.
    - apply Forall_cons in Hall as [Hline Hall]. cbn [for_of].
      assert (∃ st1, step st line = Normal st1
                     ∧ ∀ c, current st1 = Some c → group c ∉ inherited_methods)
        as (st1 & -> & Hcur1); [|by apply IH].
      unfold step. unfold is_meta in Hline.
      destruct (Str.startsWith "#EXTINF" _).
      + eexists. split; [done|]. cbn. intros c [= <-]. by apply Hline.
      + destruct (Str.startsWith "http" _); [|by eexists].
        destruct (current st) as [c|] eqn:Hc; [|eexists; split; [done|]; congruence].
        unfold file_under. destruct (byGroup st !! group c) as [old|].
        * destruct (length old <? 60); cbn; by eexists.
        * case_bool_decide; [cbn; by eexists|].
          rewrite bool_decide_eq_false_2 by (by apply Hcur). cbn. by eexists. }
  unfold parse. destruct (Hloop (Str.split Str.LF text) {| byGroup := ∅; current := None |})
    as [st' ->]; [done|done|]. by eexists.
Qed.

Lemma fetchIptvOrg_returns_for_plain_groups_witness :
  ∃ groups, fetchIptvOrg (Some Sample.playlist) = Normal groups.
Proof.
  apply (fetchIptvOrg_returns_for_plain_groups Sample.playlist).
  apply (bool_decide_unpack _). vm_compute. exact I.
Defined.

(** X19: a metadata line that names such a method as its group makes the
    loop throw a [TypeError] at the URL line that follows it. *)
Theorem parse_throws_on_inherited_group (before after : list string)
    (meta url : string) (st : state) :
  parse before = Normal st →
  is_meta meta = true → is_url url = true →
  group (announce (Str.trim meta)) ∈ inherited_methods →
  parse (before ++ meta :: url :: after)
    = Throw (TypeError "byGroup[g].push is not a function").
Proof.
  intros Hbefore Hmeta Hurl Hgroup. unfold parse in *.
  rewrite for_of_app, Hbefore. cbn [Completion.bind for_of].
  rewrite (step_meta _ _ Hmeta). cbn [Completion.bind].
  rewrite (step_url {| byGroup := byGroup st; current := Some (announce (Str.trim meta)) |}
             url (announce (Str.trim meta)) Hurl eq_refl). cbn [byGroup].
  assert (byGroup st !! group (announce (Str.trim meta)) = None) as Hnone.
  { refine (for_of_invariant step
              (λ st, ∀ g, g ∈ inherited_methods → byGroup st !! g = None)
              _ _ _ (λ s x s', step_no_inherited_key s s' x) _ Hbefore _ Hgroup).
    intros g _. apply lookup_empty. }
  unfold file_under. rewrite Hnone.
  case_bool_decide as Hproto;
    [rewrite Hproto in Hgroup; by apply proto_is_no_method in Hgroup|].
  by rewrite bool_decide_eq_true_2.
Qed.

End PlaylistEdges.

Section PlaylistConverse.
Import Playlist.

Lemma parse_throws_on_inherited_group_witness :
  parse ([] ++ More.method_line :: "http://a.example/live.m3u8" :: [])
    = Throw (TypeError "byGroup[g].push is not a function").
Proof.
  apply (parse_throws_on_inherited_group [] [] More.method_line "http://a.example/live.m3u8"
           {| byGroup := ∅; current := None |}).
  - reflexivity.
  - reflexivity.
  - reflexivity.
  - apply (list_elem_of_lookup_2 _ 5). reflexivity.
Defined.

(** An entry that is filed stays filed. *)
Lemma step_keeps_entries (g : string) (e : entry) (st st' : state) (line : string) :
  e ∈ Entry.at_key (byGroup st) g → step st line = Normal st' →
  e ∈ Entry.at_key (byGroup st') g.
Proof.
  intros He. unfold step.
  destruct (Str.startsWith "#EXTINF" _); [by intros [= <-]|].
  destruct (Str.startsWith "http" _); [|by intros [= <-]].
  destruct (current st) as [c|]; [|by intros [= <-]].
  unfold file_under.
  destruct (byGroup st !! group c) as [old|] eqn:Hold.
  - destruct (length old <? 60); cbn; intros [= <-]; [|done]. cbn [byGroup].
    unfold Entry.at_key in *. destruct (decide (group c = g)) as [<-|Hne].
    + rewrite lookup_insert_eq. rewrite Hold in He. cbn in *.
      apply elem_of_app. by left.
    + by rewrite lookup_insert_ne.
  - case_bool_decide; [cbn; by intros [= <-]|].
    case_bool_decide; [done|]. cbn. intros [= <-]. cbn [byGroup].
    unfold Entry.at_key in *. destruct (decide (group c = g)) as [<-|Hne].
    + rewrite Hold in He. by apply elem_of_nil in He.
    + by rewrite lookup_insert_ne.
Qed.

(** X20: both halves present, the entry is there: a metadata line and the
    URL line right after it give an entry in the metadata line's group,
    and it is still there at the end of the loop, when that group had
    fewer than 60 entries and its name is none that objects inherit. *)
Theorem parse_files_announced_url (before after : list string) (meta url : string)
    (st st' : state) :
  parse before = Normal st →
  is_meta meta = true → is_url url = true →
  group (announce (Str.trim meta)) ∉ inherited_methods →
  group (announce (Str.trim meta)) ≠ "__proto__" →
  length (Entry.at_key (byGroup st) (group (announce (Str.trim meta)))) < 60 →
  parse (before ++ meta :: url :: after) = Normal st' →
  to_entry (announce (Str.trim meta)) (Str.trim url)
    ∈ Entry.at_key (byGroup st') (group (announce (Str.trim meta))).
Proof.
  intros Hbefore Hmeta Hurl Hplain Hproto Hroom. unfold parse in *.
  rewrite for_of_app, Hbefore. cbn [Completion.bind for_of].
  rewrite (step_meta _ _ Hmeta). cbn [Completion.bind].
  rewrite (step_url {| byGroup := byGroup st; current := Some (announce (Str.trim meta)) |}
             url (announce (Str.trim meta)) Hurl eq_refl). cbn [byGroup].
  set (c := announce (Str.trim meta)) in *. set (e := to_entry c (Str.trim url)).
  assert (∃ groups, file_under (byGroup st) (group c) e = Normal groups
                    ∧ e ∈ Entry.at_key groups (group c)) as (groups & -> & He).
  { unfold file_under, Entry.at_key in *.
    destruct (byGroup st !! group c) as [old|]; cbn in Hroom.
    - apply Nat.ltb_lt in Hroom. rewrite Hroom. eexists. split; [done|].
      rewrite lookup_insert_eq. cbn. apply elem_of_app. right. left.
    - rewrite !bool_decide_eq_false_2 by done. eexists. split; [done|].
      rewrite lookup_insert_eq. left. }
  cbn [Completion.bind]. intros Hafter.
  refine (for_of_invariant step (λ st, e ∈ Entry.at_key (byGroup st) (group c))
            _ _ _ (λ s x s', step_keeps_entries (group c) e s s' x) _ Hafter).
  done.
Qed.

Lemma parse_files_announced_url_witness :
  to_entry (announce (Str.trim "#EXTINF:-1,Channel A")) (Str.trim "http://a.example/live.m3u8")
    ∈ Entry.at_key
        (byGroup {| byGroup := {[ "General" := [Sample.channel_a] ]}; current := None |})
        (group (announce (Str.trim "#EXTINF:-1,Channel A"))).
Proof.
  apply (parse_files_announced_url [] [] "#EXTINF:-1,Channel A" "http://a.example/live.m3u8"
           {| byGroup := ∅; current := None |}
           {| byGroup := {[ "General" := [Sample.channel_a] ]}; current := None |}).
  - reflexivity.
  - reflexivity.
  - reflexivity.
  - apply (bool_decide_unpack _). vm_compute. exact I.
  - vm_compute. discriminate.
  - vm_compute. lia.
  - vm_compute. reflexivity.
Defined.

End PlaylistConverse.

Section AnnounceFacts.
Import Playlist.

Lemma quoted_none (s : string) :
  Str.dquote ∉ list_ascii_of_string s → Str.quoted s = None.
Proof.
  induction s as [|c s IH]; [done|]. cbn [list_ascii_of_string Str.quoted].
  intros [Hc Hs]%not_elem_of_cons. rewrite bool_decide_eq_false_2 by done.
  by rewrite IH.
Qed.

(** What is left after a literal is a part of the text. *)
Lemma after_ci_chars (p : string) : ∀ s r c,
  Str.after_ci p s = Some r → c ∈ list_ascii_of_string r → c ∈ list_ascii_of_string s.
Proof.
  induction p as [|a p IH]; intros s r c.
  - destruct s; cbn; by intros [= <-].
  - destruct s as [|b s]; [done|]. cbn [Str.after_ci list_ascii_of_string].
    case_bool_decide; [|done]. intros Hr Hc. right. by eapply IH.
Qed.

Lemma match_attr_unfold (attr s : string) :
  Str.match_attr attr s =
    match Str.after_ci (attr +:+ "=" +:+ String Str.dquote EmptyString) s ≫= Str.quoted with
    | Some cap => Some cap
    | None => match s with
              | EmptyString => None
              | String _ r => Str.match_attr attr r
              end
    end.
Proof. by destruct s. Qed.

Lemma match_attr_none (attr s : string) :
  Str.dquote ∉ list_ascii_of_string s → Str.match_attr attr s = None.
Proof.
  induction s as [|c s IH]; intros Hs; rewrite match_attr_unfold.
  - destruct (Str.after_ci _ _) as [r|] eqn:Hafter; [|done]. cbn.
    rewrite quoted_none; [done|]. intros Hin. apply Hs. by eapply after_ci_chars.
  - destruct (Str.after_ci _ _) as [r|] eqn:Hafter; cbn.
    + rewrite quoted_none.
      * apply IH. cbn in Hs. by apply not_elem_of_cons in Hs as [_ ?].
      * intros Hin. apply Hs. by eapply after_ci_chars.
    + apply IH. cbn in Hs. by apply not_elem_of_cons in Hs as [_ ?].
Qed.

Lemma match_after_comma_none (s : string) :
  ","%char ∉ list_ascii_of_string s → Str.match_after_comma s = None.
Proof.
  induction s as [|c s IH]; [done|]. cbn [list_ascii_of_string Str.match_after_comma].
  intros [Hc Hs]%not_elem_of_cons. rewrite bool_decide_eq_false_2 by done.
  by apply IH.
Qed.

(** X21: a metadata line without a double quote has no attribute to read:
    its entry goes to the group [General] with an empty logo and id; and
    without a comma it has no name to read and is called [Unknown]. *)
Theorem announce_defaults (trimmed : string) :
  Str.dquote ∉ list_ascii_of_string trimmed →
  group (announce trimmed) = "General"
  ∧ logo (announce trimmed) = ""
  ∧ id (announce trimmed) = ""
  ∧ (","%char ∉ list_ascii_of_string trimmed → name (announce trimmed) = "Unknown").
Proof.
  intros Hq. unfold announce. cbn [group logo id name].
  rewrite !match_attr_none by done. split_and!; [done..|].
  intros Hc. by rewrite match_after_comma_none.
Qed.

Lemma announce_defaults_witness :
  group (announce "#EXTINF:-1") = "General"
  ∧ logo (announce "#EXTINF:-1") = ""
  ∧ id (announce "#EXTINF:-1") = ""
  ∧ (","%char ∉ list_ascii_of_string "#EXTINF:-1" → name (announce "#EXTINF:-1") = "Unknown").
Proof.
  apply (announce_defaults "#EXTINF:-1").
  apply (bool_decide_unpack _). vm_compute. exact I.
Defined.

Lemma match_after_comma_first (a b : string) :
  ","%char ∉ list_ascii_of_string a → b ≠ "" → Str.dots b = true →
  Str.match_after_comma (a +:+ String "," b) = Some b.
Proof.
  intros Ha Hb Hdots. induction a as [|c a IH].
  - change ("" +:+ String "," b) with (String "," b). cbn [Str.match_after_comma].
    rewrite bool_decide_eq_true_2 by done. rewrite bool_decide_eq_false_2 by done.
    by rewrite Hdots.
  - cbn in Ha. apply not_elem_of_cons in Ha as [Hc Ha].
    change (String c a +:+ String "," b) with (String c (a +:+ String "," b)).
    cbn [Str.match_after_comma].
    rewrite (bool_decide_eq_false_2 (c = ","%char)) by done. cbn [andb]. by apply IH.
Qed.

(** X22: the name of a channel is what follows the first comma of its
    metadata line, trimmed, wherever that comma is: also inside a quoted
    attribute. *)
Theorem announce_name_follows_first_comma (a b : string) :
  ","%char ∉ list_ascii_of_string a → b ≠ "" → Str.dots b = true →
  name (announce (a +:+ String "," b)) = Str.trim b.
Proof.
  intros Ha Hb Hdots. unfold announce. cbn [name].
  by rewrite match_after_comma_first.
Qed.

Lemma announce_name_follows_first_comma_witness :
  name (announce (More.before_comma +:+ String "," More.after_comma))
    = Str.trim More.after_comma.
Proof.
  apply (announce_name_follows_first_comma More.before_comma More.after_comma).
  - apply (bool_decide_unpack _). vm_compute. exact I.
  - discriminate.
  - reflexivity.
Defined.

End AnnounceFacts.

Section AttributeFacts.
Import Playlist.

Lemma string_app_assoc (a b c : string) : (a +:+ b) +:+ c = a +:+ (b +:+ c).
Proof. induction a as [|x a IH]; [done|]. push_char. simpl. by f_equal. Qed.

Lemma string_app_length (a b : string) :
  String.length (a +:+ b) = String.length a + String.length b.
Proof. induction a as [|x a IH]; [done|]. push_char. simpl. by f_equal. Qed.

Lemma string_app_chars (a b : string) :
  list_ascii_of_string (a +:+ b) = list_ascii_of_string a ++ list_ascii_of_string b.
Proof. induction a as [|x a IH]; [done|]. push_char. simpl. by f_equal. Qed.

(** Only the double quote folds to the double quote. *)
Lemma fold_case_quote (c : ascii) :
  Str.fold_case Str.dquote = Str.fold_case c → c = Str.dquote.
Proof.
  destruct c as [[] [] [] [] [] [] [] []]; intros H; vm_compute in H;
    first [discriminate H | reflexivity].
Qed.

Lemma after_ci_self (p rest : string) : Str.after_ci p (p +:+ rest) = Some rest.
Proof.
  induction p as [|a p IH]; [by destruct rest|].
  push_char. cbn [Str.after_ci]. by rewrite bool_decide_eq_true_2.
Qed.

(** A literal that ends in a double quote does not match where the text
    has its first double quote further on. *)
Lemma after_ci_blocked (p : string) : ∀ x rest,
  Str.dquote ∉ list_ascii_of_string x → String.length p < String.length x →
  Str.after_ci (p +:+ String Str.dquote EmptyString) (x +:+ String Str.dquote rest) = None.
Proof.
  induction p as [|a p IH]; intros [|c x] rest Hx Hlen; cbn in Hlen; try lia.
  - cbn in Hx. apply not_elem_of_cons in Hx as [Hc _].
    change (Str.after_ci (String Str.dquote EmptyString) (String c (x +:+ String Str.dquote rest))
            = None).
    cbn [Str.after_ci]. rewrite bool_decide_eq_false_2; [done|].
    intros Heq%fold_case_quote. done.
  - cbn in Hx. apply not_elem_of_cons in Hx as [_ Hx].
    change (Str.after_ci (String a (p +:+ String Str.dquote EmptyString))
              (String c (x +:+ String Str.dquote rest)) = None).
    cbn [Str.after_ci]. case_bool_decide; [|done]. apply IH; [done|lia].
Qed.

Lemma quoted_app (v rest : string) :
  Str.dquote ∉ list_ascii_of_string v →
  Str.quoted (v +:+ String Str.dquote rest) = Some v.
Proof.
  induction v as [|c v IH]; intros Hv.
  - change (Str.quoted (String Str.dquote rest) = Some EmptyString).
    cbn [Str.quoted]. by rewrite bool_decide_eq_true_2.
  - cbn in Hv. apply not_elem_of_cons in Hv as [Hc Hv].
    change (Str.quoted (String c (v +:+ String Str.dquote rest)) = Some (String c v)).
    cbn [Str.quoted]. rewrite bool_decide_eq_false_2 by done. by rewrite IH.
Qed.

(** The first quoted attribute of a text is read whole. *)
Lemma match_attr_first (attr a v rest : string) :
  Str.dquote ∉ list_ascii_of_string a →
  Str.dquote ∉ list_ascii_of_string attr →
  Str.dquote ∉ list_ascii_of_string v →
  Str.match_attr attr
    (a +:+ attr +:+ String "=" (String Str.dquote (v +:+ String Str.dquote rest)))
  = Some v.
Proof.
  intros Ha Hattr Hv.
  set (z := v +:+ String Str.dquote rest).
  set (pat := attr +:+ "=" +:+ String Str.dquote EmptyString).
  assert (pat = (attr +:+ "=") +:+ String Str.dquote EmptyString) as Hpat
    by (subst pat; by rewrite string_app_assoc).
  assert (attr +:+ String "=" (String Str.dquote z)
          = (attr +:+ "=") +:+ String Str.dquote z) as Htext
    by (by rewrite string_app_assoc).
  assert (Str.after_ci pat (attr +:+ String "=" (String Str.dquote z)) = Some z) as Hhere.
  { rewrite Htext, Hpat.
    replace ((attr +:+ "=") +:+ String Str.dquote z)
      with (((attr +:+ "=") +:+ String Str.dquote EmptyString) +:+ z)
      by (by rewrite string_app_assoc).
    apply after_ci_self. }
  induction a as [|c a IH]; rewrite match_attr_unfold; fold pat.
  - change ("" +:+ attr +:+ String "=" (String Str.dquote z))
      with (attr +:+ String "=" (String Str.dquote z)).
    rewrite Hhere. cbn. subst z. by rewrite quoted_app.
  - cbn in Ha. apply not_elem_of_cons in Ha as [Hc Ha].
    assert (Str.after_ci pat (String c a +:+ attr +:+ String "=" (String Str.dquote z)) = None)
      as ->.
    { rewrite Hpat, Htext, <- string_app_assoc. apply after_ci_blocked.
      - rewrite !string_app_chars. cbn. rewrite not_elem_of_cons, !not_elem_of_app.
        split_and!; [done..|]. apply not_elem_of_cons. split; [done|apply not_elem_of_nil].
      - rewrite !string_app_length. cbn. lia. }
    cbn. by apply IH.
Qed.

(** X23: the first quoted attribute of a metadata line is read whole: when
    no double quote comes before it, the text between the quotes of
    [group-title], of [tvg-logo] or of [tvg-id], trimmed, is the group, the
    logo or the id of the entry. *)
Theorem announce_reads_first_attribute (a v rest : string) :
  Str.dquote ∉ list_ascii_of_string a →
  Str.dquote ∉ list_ascii_of_string v →
  group (announce (a +:+ "group-title" +:+
                   String "=" (String Str.dquote (v +:+ String Str.dquote rest))))
    = Str.trim v
  ∧ logo (announce (a +:+ "tvg-logo" +:+
                    String "=" (String Str.dquote (v +:+ String Str.dquote rest))))
    = Str.trim v
  ∧ id (announce (a +:+ "tvg-id" +:+
                  String "=" (String Str.dquote (v +:+ String Str.dquote rest))))
    = Str.trim v.
Proof.
  intros Ha Hv. unfold announce. cbn [group logo id].
  rewrite !match_attr_first; try done; apply (bool_decide_unpack _); vm_compute; exact I.
Qed.

Lemma announce_reads_first_attribute_witness :
  group (announce ("#EXTINF:-1 " +:+ "group-title" +:+
                   String "=" (String Str.dquote (" News " +:+ String Str.dquote ",Channel N"))))
    = Str.trim " News "
  ∧ logo (announce ("#EXTINF:-1 " +:+ "tvg-logo" +:+
                    String "=" (String Str.dquote (" News " +:+ String Str.dquote ",Channel N"))))
    = Str.trim " News "
  ∧ id (announce ("#EXTINF:-1 " +:+ "tvg-id" +:+
                  String "=" (String Str.dquote (" News " +:+ String Str.dquote ",Channel N"))))
    = Str.trim " News ".
Proof.
  apply (announce_reads_first_attribute "#EXTINF:-1 " " News " ",Channel N");
    apply (bool_decide_unpack _); vm_compute; exact I.
Defined.

End AttributeFacts.

(** ** Video Search Fetcher and Metadata Fetcher *)

Section SliceFacts.

Lemma slice0_length (n : nat) (s : string) : String.length (slice0 n s) ≤ n.
Proof.
  unfold slice0. revert s. induction n as [|n IH]; intros [|c s]; cbn; try lia.
  specialize (IH s). lia.
Qed.

End SliceFacts.

Section YouTubeMore.
Import Table YouTube.

(** The loop sends one search for each row, whatever the answers are. *)
Lemma youtube_loop_sent net key (rows : list (string * descriptor)) :
  ∀ (lists : listing) sent,
    (Net.for_of (step net key) lists rows sent).2 = sent ++ (search key <$> rows.*2).
Proof.
  induction rows as [|[c def] rows IH]; intros lists sent.
  - cbn. by rewrite app_nil_r.
  - cbn [Net.for_of]. unfold Net.bind at 1, step at 1, Net.get, Net.bind.
    destruct (net sent (search key def)) as [d|]; [destruct (items d)|];
      cbn [Net.ret]; rewrite IH, !fmap_cons; cbn [snd]; by rewrite <- (assoc_L (++)).
Qed.

(** X24: with a key, one search is sent for each of the sixteen categories,
    in the order of the table and whatever the answers are, so a search
    that fails does not stop the others; without a key none is sent.  Only
    categories get a list. *)
Theorem fetchYouTube_asks_every_category net key sent :
  (fetchYouTube net key sent).2 =
    sent ++ (if bool_decide (key = "") then [] else search key <$> CATEGORIES.*2)
  ∧ length (search key <$> CATEGORIES.*2) = 16
  ∧ (∀ cat, is_Some ((fetchYouTube net key sent).1 !! cat) → cat ∈ CATEGORIES.*1).
Proof.
  unfold fetchYouTube. split_and!.
  - case_bool_decide; [unfold Net.ret; cbn [snd]; by rewrite app_nil_r|].
    apply youtube_loop_sent.
  - reflexivity.
  - case_bool_decide; [unfold Net.ret; cbn [fst]; intros cat [? H0];
                       by rewrite lookup_empty in H0|].
    intros cat [l Hl].
    destruct (Net.for_of _ _ _ sent) as [lists' sent'] eqn:Hloop. cbn [fst] in Hl.
    destruct (youtube_loop _ _ _ _ _ _ _ Hloop cat l Hl)
      as [Hold|(def & _ & _ & _ & Hin & _)]; [by rewrite lookup_empty in Hold|].
    by apply (list_elem_of_fmap_2 fst) in Hin.
Qed.

Lemma to_entry_shape (i : item) :
  truthy (video_of i) = true →
  (∃ v, v ≠ "" ∧ videoId <$> id i = Some (Some v)
        ∧ to_entry i !! "url" = Some (VStr ("https://www.youtube.com/watch?v=" +:+ v)))
  ∧ truthy (Entry.url (to_entry i)) = true
  ∧ ∃ d, to_entry i !! "desc" = Some (VStr d) ∧ String.length d ≤ 120.
Proof.
  intros Hvideo. split_and!.
  - unfold video_of in Hvideo. destruct (id i) as [[[v|]]|] eqn:Hid; try done.
    exists v. split_and!.
    + intros ->. done.
    + done.
    + unfold to_entry, watch_url, video_of. rewrite Hid. cbn [of_opt].
      rewrite !lookup_insert_ne by done. apply lookup_insert_eq.
  - unfold Entry.url, to_entry. rewrite !lookup_insert_ne by done.
    rewrite lookup_insert_eq. done.
  - unfold to_entry. rewrite !lookup_insert_ne by done. rewrite lookup_insert_eq.
    destruct (description (snippet i)) as [s|]; cbn; [|exists ""; split; [done|cbn; lia]].
    unfold or_else. destruct (truthy (VStr (slice0 120 s))).
    + eexists. split; [done|apply slice0_length].
    + exists "". split; [done|cbn; lia].
Qed.

(** X25: every video entry has the watch URL of a video id that is not
    empty, so its [url] is never missing or empty, and has for [desc] a
    string of at most 120 characters. *)
Theorem fetchYouTube_entries_have_watch_urls net key sent cat l :
  (fetchYouTube net key sent).1 !! cat = Some l →
  Forall (λ e,
    (∃ v, v ≠ "" ∧ e !! "url" = Some (VStr ("https://www.youtube.com/watch?v=" +:+ v)))
    ∧ truthy (Entry.url e) = true
    ∧ ∃ d, e !! "desc" = Some (VStr d) ∧ String.length d ≤ 120) l.
Proof.
  unfold fetchYouTube. case_bool_decide; [unfold Net.ret; cbn [fst]; by rewrite lookup_empty|].
  destruct (Net.for_of _ _ _ sent) as [lists' sent'] eqn:Hloop. cbn [fst].
  intros Hl. destruct (youtube_loop _ _ _ _ _ _ _ Hloop cat l Hl)
    as [Hold|(def & h & d & its & _ & _ & _ & ->)]; [by rewrite lookup_empty in Hold|].
  apply Forall_fmap, Forall_forall. intros i [Hi _]%list_elem_of_filter.
  destruct (to_entry_shape i Hi) as ((v & Hv & _ & Hurl) & Ht & Hdesc).
  cbn. split_and!; [by exists v|done|done].
Qed.

Lemma fetchYouTube_entries_have_watch_urls_witness :
  Forall (λ e,
    (∃ v, v ≠ "" ∧ e !! "url" = Some (VStr ("https://www.youtube.com/watch?v=" +:+ v)))
    ∧ truthy (Entry.url e) = true
    ∧ ∃ d, e !! "desc" = Some (VStr d) ∧ String.length d ≤ 120)
    [to_entry (Sample.video "v1" "One")].
Proof.
  apply (fetchYouTube_entries_have_watch_urls Sample.yt_net "key" [] "news").
  vm_compute. reflexivity.
Defined.

End YouTubeMore.

Section TMDBMore.
Import Table TMDB.

(** Every list of the result is made of the first 8 results of the
    response to the request of its category, sent after the requests of
    the first claims before it. *)
Lemma tmdb_loop_lists_at net key (rows : list (string * descriptor)) :
  ∀ earlier st sent st' sent',
    (∀ z, z ∈ seen st ↔ z ∈ earlier) →
    Net.for_of (step net key) st rows sent = (st', sent') →
    ∀ cat l, byCategory st' !! cat = Some l →
      byCategory st !! cat = Some l
      ∨ ∃ i def d rs,
          rows !! i = Some (cat, def)
          ∧ net (sent ++ (discover key <$> (first_claims_after earlier (take i rows)).*2))
                (discover key def) = Some d
          ∧ results d = Some rs
          ∧ l = to_entry <$> take 8 rs.
Proof.
  induction rows as [|[c def] rows IH]; intros earlier st sent st' sent' Hseen.
  - cbn. intros [= <- <-]. eauto.
  - cbn [Net.for_of]. unfold Net.bind at 1, step at 1.
    assert (∀ st1, (∀ z, z ∈ seen st1 ↔ z ∈ seen st ∨ z = tmdb_genre_id def) →
                   ∀ z, z ∈ seen st1 ↔ z ∈ earlier ++ [tmdb_genre_id def]) as Hnext.
    { intros st1 H1 z. rewrite H1, elem_of_app, list_elem_of_singleton, Hseen. done. }
    destruct (JSSet.has (seen st) (tmdb_genre_id def)) eqn:Hhas.
    + apply has_spec in Hhas as Hin. cbn [Net.ret]. intros Hloop cat l Hl.
      apply (IH (earlier ++ [tmdb_genre_id def])) with (cat := cat) (l := l) in Hloop;
        [|apply Hnext; intros z; split; [by left|]; by intros [?| ->]|done].
      destruct Hloop as [Hold|(i & def' & d' & rs' & Hi & Hn & ?)]; [by left|].
      right. exists (S i), def', d', rs'. split; [done|]. split; [|done].
      cbn [take first_claims_after snd].
      rewrite bool_decide_eq_true_2 by (by apply Hseen). done.
    + assert (tmdb_genre_id def ∉ seen st) as Hnot.
      { intros Hin%has_spec. congruence. }
      assert (∀ z, z ∈ JSSet.add (seen st) (tmdb_genre_id def)
                   ↔ z ∈ seen st ∨ z = tmdb_genre_id def) as Hadd.
      { intros z. rewrite add_fresh by done.
        by rewrite elem_of_app, list_elem_of_singleton. }
      assert (∀ i, (sent ++ [discover key def])
                   ++ (discover key <$>
                         (first_claims_after (earlier ++ [tmdb_genre_id def]) (take i rows)).*2)
                   = sent ++ (discover key <$>
                         (first_claims_after earlier (take (S i) ((c, def) :: rows))).*2))
        as Hsent.
      { intros i. cbn [take first_claims_after snd].
        rewrite bool_decide_eq_false_2 by (by rewrite <- Hseen).
        rewrite !fmap_app. cbn. by rewrite <- (assoc_L (++)). }
      unfold Net.get, Net.bind.
      destruct (net sent (discover key def)) as [d|] eqn:Hnet;
        [destruct (results d) as [rs|] eqn:Hrs|];
        cbn [Net.ret]; intros Hloop cat l Hl;
        (apply (IH (earlier ++ [tmdb_genre_id def])) with (cat := cat) (l := l) in Hloop;
           [|by apply Hnext|done]);
        (destruct Hloop as [Hold|(i & def' & d' & rs' & Hi & Hn & ?)];
           [|right; exists (S i), def', d', rs'; split; [done|]; by rewrite <- Hsent]);
        cbn [byCategory] in Hold.
      * destruct (decide (c = cat)) as [->|Hne].
        -- rewrite lookup_insert_eq in Hold. simplify_eq.
           right. exists 0, def, d, rs. cbn. rewrite app_nil_r. done.
        -- rewrite lookup_insert_ne in Hold by done. by left.
      * by left.
      * by left.
Qed.

Lemma tmdb_to_entry_shape (r : result) :
  to_entry r !! "type" = Some (VStr "info")
  ∧ to_entry r !! "source" = Some (VStr "tmdb")
  ∧ to_entry r !! "url" = Some (VStr ("https://www.themoviedb.org/tv/" +:+ pretty (id r)))
  ∧ truthy (Entry.url (to_entry r)) = true
  ∧ (∃ d, to_entry r !! "desc" = Some (VStr d) ∧ String.length d ≤ 120
          ∧ d = slice0 120 (default "" (overview r)))
  ∧ (to_entry r !! "logo" = Some (VStr "")
       ∧ (poster_path r = None ∨ poster_path r = Some "")
     ∨ ∃ p, p ≠ "" ∧ poster_path r = Some p
            ∧ to_entry r !! "logo" = Some (VStr ("https://image.tmdb.org/t/p/w92" +:+ p))).
Proof.
  unfold to_entry. split_and!.
  - apply lookup_insert_eq.
  - rewrite lookup_insert_ne by done. apply lookup_insert_eq.
  - rewrite !lookup_insert_ne by done. apply lookup_insert_eq.
  - unfold Entry.url. rewrite !lookup_insert_ne by done. rewrite lookup_insert_eq. done.
  - rewrite !lookup_insert_ne by done. rewrite lookup_insert_eq.
    eexists. split_and!; [done|apply slice0_length|done].
  - rewrite !lookup_insert_ne by done. rewrite lookup_insert_eq.
    destruct (poster_path r) as [p|]; cbn; [|left; by split; [|left]].
    case_bool_decide as Hp; cbn; [left; split; [done|right; by rewrite Hp]|].
    right. by exists p.
Qed.

(** X26: the show entries of a category are made, one for one and in
    order, from the first 8 results of the response to the request of the
    category, so they are at most 8; the entry of a result is tagged
    [info] and [tmdb], has the page of that result's id as its [url],
    which is never missing or empty, the first 120 characters of its
    overview as [desc], and a [logo] that is the image address of its
    poster path, or empty when it has none. *)
Theorem fetchTMDB_entries_are_capped_and_shaped net key sent cat l :
  (fetchTMDB net key sent).1 !! cat = Some l →
  length l ≤ 8
  ∧ ∃ i def d rs,
      CATEGORIES !! i = Some (cat, def)
      ∧ net (sent ++ (discover key <$> (first_claims (take i CATEGORIES)).*2))
            (discover key def) = Some d
      ∧ results d = Some rs
      ∧ Forall2 (λ r e,
          e !! "type" = Some (VStr "info")
          ∧ e !! "source" = Some (VStr "tmdb")
          ∧ e !! "url" = Some (VStr ("https://www.themoviedb.org/tv/" +:+ pretty (id r)))
          ∧ truthy (Entry.url e) = true
          ∧ (∃ d, e !! "desc" = Some (VStr d) ∧ String.length d ≤ 120
                  ∧ d = slice0 120 (default "" (overview r)))
          ∧ (e !! "logo" = Some (VStr "")
               ∧ (poster_path r = None ∨ poster_path r = Some "")
             ∨ ∃ p, p ≠ "" ∧ poster_path r = Some p
                    ∧ e !! "logo" = Some (VStr ("https://image.tmdb.org/t/p/w92" +:+ p))))
          (take 8 rs) l.
Proof.
  unfold fetchTMDB. case_bool_decide; [unfold Net.ret; cbn [fst]; by rewrite lookup_empty|].
  unfold Net.bind.
  destruct (Net.for_of _ _ _ sent) as [st' sent'] eqn:Hloop. unfold Net.ret. cbn [fst].
  intros Hl.
  assert (∀ z : Z, z ∈ JSSet.empty ↔ z ∈ []) as Hseen by done.
  destruct (tmdb_loop_lists_at _ _ _ [] {| byCategory := ∅; seen := JSSet.empty |}
              _ _ _ Hseen Hloop cat l Hl)
    as [Hold|(i & def & d & rs & Hi & Hnet & Hrs & ->)];
    [cbn [byCategory] in Hold; by rewrite lookup_empty in Hold|].
  split.
  - rewrite length_fmap, length_take. lia.
  - exists i, def, d, rs. split_and!; [done..|].
    apply Forall2_fmap_r, Forall_Forall2_diag, Forall_forall. intros r _.
    apply tmdb_to_entry_shape.
Qed.

Lemma fetchTMDB_entries_are_capped_and_shaped_witness :
  length [to_entry Sample.show] ≤ 8
  ∧ ∃ i def d rs,
      CATEGORIES !! i = Some ("technology", def)
      ∧ Sample.tmdb_net ([] ++ (discover "key" <$> (first_claims (take i CATEGORIES)).*2))
                        (discover "key" def) = Some d
      ∧ results d = Some rs
      ∧ Forall2 (λ r e,
          e !! "type" = Some (VStr "info")
          ∧ e !! "source" = Some (VStr "tmdb")
          ∧ e !! "url" = Some (VStr ("https://www.themoviedb.org/tv/" +:+ pretty (id r)))
          ∧ truthy (Entry.url e) = true
          ∧ (∃ d, e !! "desc" = Some (VStr d) ∧ String.length d ≤ 120
                  ∧ d = slice0 120 (default "" (overview r)))
          ∧ (e !! "logo" = Some (VStr "")
               ∧ (poster_path r = None ∨ poster_path r = Some "")
             ∨ ∃ p, p ≠ "" ∧ poster_path r = Some p
                    ∧ e !! "logo" = Some (VStr ("https://image.tmdb.org/t/p/w92" +:+ p))))
          (take 8 rs) [to_entry Sample.show].
Proof.
  apply (fetchTMDB_entries_are_capped_and_shaped Sample.tmdb_net "key" [] "technology").
  vm_compute. reflexivity.
Defined.

End TMDBMore.
